(** * libhri: the HRIListener registry of tracked faces, bodies, voices and persons

    A shallow embedding of [HRIListener] (include/hri/hri.h, src/hri.cpp):
    the four entity maps, the four callback lists, the getters, the
    callback registration and [onTrackedFeature], the handler that brings
    an entity map in line with the list of ids received on a [/tracked]
    topic.

    - [std::map<ID, ...>] and [std::set<ID>] are finite maps and sets over
      strings; their iterators visit the keys in increasing order, which
      [map_iter] and [set_iter] reproduce.
    - [std::shared_ptr] is an address into a heap of tracker objects;
      [make_shared] allocates at an address that holds no object, and an
      object leaves the heap with the last pointer of the listener to it.
    - the handler runs in a monad threading the listener, the heap and a
      trace of the container and object operations it performs; an
      exception leaving [init()] aborts the handler and keeps the state
      reached so far. *)

From stdpp Require Import gmap strings list sorting fin_maps fin_sets.

#[local] Set Warnings "-clear-no-such-hyp".

(** ** Identifiers and categories *)

(** [enum FeatureType] as used by the switch statements of the handler. *)
Inductive FeatureType := face | body | voice | person.

Global Instance FeatureType_eq_dec : EqDecision FeatureType.
Proof. solve_decision. Defined.

(** [ID] is string-backed. *)
Abbreviation ID := string (only parsing).

(** The order of [std::less<std::string>]: lexicographic on the bytes. *)
Definition ID_le : relation ID := λ a b, String.leb a b = true.

Global Instance ID_le_dec : RelDecision ID_le.
Proof. intros a b. unfold ID_le. apply _. Defined.

Global Instance ID_le_total : Total ID_le.
Proof. intros a b. apply String.leb_total. Qed.

(** [for (auto id : s)] over a [std::set<ID>]: the elements in increasing order. *)
Definition set_iter (s : gset ID) : list ID := merge_sort ID_le (elements s).

(** The order of the entries of a [std::map<ID, V>]: by key. *)
Definition key_le {V} : relation (ID * V) := λ kv1 kv2, ID_le kv1.1 kv2.1.

Global Instance key_le_dec {V} : RelDecision (@key_le V).
Proof. intros a b. unfold key_le. apply _. Defined.

(** [for (auto const& kv : m)] over a [std::map<ID, V>]: the entries by increasing key. *)
Definition map_iter {V} (m : gmap ID V) : list (ID * V) :=
  merge_sort key_le (map_to_list m).

(** ** Pointers and tracker objects *)

Abbreviation ptr := nat (only parsing).

(** [std::shared_ptr<const T>]: an owning reference to the object at [sp_get]. *)
Record shared_ptr := Shared { sp_get : ptr }.

(** [std::weak_ptr<const T>]: a non-owning reference to the object at [wp_target]. *)
Record weak_ptr := Weak { wp_target : ptr }.

Global Instance shared_ptr_eq_dec : EqDecision shared_ptr.
Proof. solve_decision. Defined.

Global Instance weak_ptr_eq_dec : EqDecision weak_ptr.
Proof. solve_decision. Defined.

(** The converting constructor [weak_ptr(const shared_ptr&)]. *)
Definition weak_of (p : shared_ptr) : weak_ptr := Weak (sp_get p).

(** A tracker is either freshly constructed or hydrated by [init()]. *)
Inductive Hydration (Detail : Type) :=
  | Constructed
  | Initialised (d : Detail).
Arguments Constructed {Detail}.
Arguments Initialised {Detail} d.

(** The part of a [Face], [Body], [Voice] or [Person] object the listener
    deals with: the id given to its constructor, its class, and whether
    [init()] has completed on it. *)
Record FeatureTracker (Detail : Type) := mkTracker {
  id_ : ID;
  kind : FeatureType;
  hydration : Hydration Detail;
}.
Arguments mkTracker {Detail} _ _ _.
Arguments id_ {Detail} _.
Arguments kind {Detail} _.
Arguments hydration {Detail} _.

(** ** The listener *)

(** The data members of [class HRIListener] that hold entities and callbacks. *)
Record HRIListener (Callback : Type) := mkListener {
  faces : gmap ID shared_ptr;
  face_callbacks : list Callback;
  bodies : gmap ID shared_ptr;
  body_callbacks : list Callback;
  voices : gmap ID shared_ptr;
  voice_callbacks : list Callback;
  persons : gmap ID shared_ptr;
  person_callbacks : list Callback;
}.
Arguments mkListener {Callback} _ _ _ _ _ _ _ _.
Arguments faces {Callback} _.
Arguments face_callbacks {Callback} _.
Arguments bodies {Callback} _.
Arguments body_callbacks {Callback} _.
Arguments voices {Callback} _.
Arguments voice_callbacks {Callback} _.
Arguments persons {Callback} _.
Arguments person_callbacks {Callback} _.

(** What the handler does, in program order. [EvNotify] is the invocation
    of a registered callback. *)
Inductive Event (Callback : Type) :=
  | EvErase (feature : FeatureType) (id : ID)
  | EvMakeShared (feature : FeatureType) (id : ID) (p : shared_ptr)
  | EvInit (p : shared_ptr)
  | EvInsert (feature : FeatureType) (id : ID) (p : shared_ptr)
  | EvNotify (feature : FeatureType) (cb : Callback) (p : shared_ptr).
Arguments EvErase {Callback} _ _.
Arguments EvMakeShared {Callback} _ _ _.
Arguments EvInit {Callback} _.
Arguments EvInsert {Callback} _ _ _.
Arguments EvNotify {Callback} _ _ _.

Definition is_notify {Callback} (e : Event Callback) : bool :=
  match e with EvNotify _ _ _ => true | _ => false end.

Definition is_erase {Callback} (e : Event Callback) : bool :=
  match e with EvErase _ _ => true | _ => false end.

Definition is_insert {Callback} (e : Event Callback) : bool :=
  match e with EvInsert _ _ _ => true | _ => false end.

(** The exception that leaves the handler when [init()] faults. *)
Inductive Exception := InitFault (feature : FeatureType) (id : ID).

Global Instance Exception_eq_dec : EqDecision Exception.
Proof. solve_decision. Defined.

Section Listener.
Context {Detail Callback : Type}.

(** [Face::init], [Body::init], [Voice::init] and [Person::init] are
    defined outside the files at hand. [init_hook feature id] is what
    [init()] does on a freshly constructed tracker of that class and
    id: it hydrates the tracker with some detail, or it faults. *)
Variable init_hook : FeatureType → ID → option Detail.

(** The listener, the objects behind its shared pointers, and the
    operations performed so far. [heap] holds the trackers the listener
    owns, through the entries of its maps and, while the handler adds
    one, through the handler's local pointer; a tracker leaves it with
    the last of these owners. Owners outside the listener (a caller that
    keeps a pointer a getter gave it) are not part of the world. *)
Record World := mkWorld {
  listener : HRIListener Callback;
  heap : gmap ptr (FeatureTracker Detail);
  trace : list (Event Callback);
}.

Inductive Outcome (A : Type) :=
  | Returned (a : A) (w : World)
  | Thrown (e : Exception) (w : World).
Arguments Returned {A} _ _.
Arguments Thrown {A} _ _.

Definition M (A : Type) : Type := World → Outcome A.

Definition ret {A} (a : A) : M A := λ w, Returned a w.

Definition bind {A B} (m : M A) (k : A → M B) : M B :=
  λ w, match m w with
       | Returned a w' => k a w'
       | Thrown e w' => Thrown e w'
       end.

Definition throw {A} (e : Exception) : M A := λ w, Thrown e w.

Definition get_listener : M (HRIListener Callback) := λ w, Returned (listener w) w.

Definition put_listener (l : HRIListener Callback) : M unit :=
  λ w, Returned tt (mkWorld l (heap w) (trace w)).

Definition emit (e : Event Callback) : M unit :=
  λ w, Returned tt (mkWorld (listener w) (heap w) (trace w ++ [e])).

Definition final {A} (o : Outcome A) : World :=
  match o with Returned _ w => w | Thrown _ w => w end.

Definition completes {A} (o : Outcome A) : Prop :=
  match o with Returned _ _ => True | Thrown _ _ => False end.

Notation "'do' x <- m ; k" := (bind m (λ x, k))
  (at level 10, x name, m at level 100, k at level 200).

(** [for (auto x : xs) { body }] *)
Fixpoint for_each {A} (xs : list A) (body : A → M unit) : M unit :=
  match xs with
  | [] => ret tt
  | x :: xs' => do _ <- body x; for_each xs' body
  end.

(** *** Member access by category *)

Definition store (feature : FeatureType) (l : HRIListener Callback) : gmap ID shared_ptr :=
  match feature with
  | face => faces l
  | body => bodies l
  | voice => voices l
  | person => persons l
  end.

Definition callbacks (feature : FeatureType) (l : HRIListener Callback) : list Callback :=
  match feature with
  | face => face_callbacks l
  | body => body_callbacks l
  | voice => voice_callbacks l
  | person => person_callbacks l
  end.

Definition set_store (feature : FeatureType) (m : gmap ID shared_ptr)
    (l : HRIListener Callback) : HRIListener Callback :=
  match feature with
  | face => mkListener m (face_callbacks l) (bodies l) (body_callbacks l)
              (voices l) (voice_callbacks l) (persons l) (person_callbacks l)
  | body => mkListener (faces l) (face_callbacks l) m (body_callbacks l)
              (voices l) (voice_callbacks l) (persons l) (person_callbacks l)
  | voice => mkListener (faces l) (face_callbacks l) (bodies l) (body_callbacks l)
              m (voice_callbacks l) (persons l) (person_callbacks l)
  | person => mkListener (faces l) (face_callbacks l) (bodies l) (body_callbacks l)
              (voices l) (voice_callbacks l) m (person_callbacks l)
  end.

(** *** Container and object operations *)

(** [shared_ptr::use_count()], as far as the listener goes: the entries
    of its four maps that hold [p]. *)
Definition use_count (l : HRIListener Callback) (p : shared_ptr) : nat :=
  size (filter (λ kv, kv.2 = p) (faces l))
  + size (filter (λ kv, kv.2 = p) (bodies l))
  + size (filter (λ kv, kv.2 = p) (voices l))
  + size (filter (λ kv, kv.2 = p) (persons l)).

(** The world once a shared pointer to [p] that is no entry of a map has
    been destroyed: the object goes when no entry holds it. *)
Definition released (p : shared_ptr) (w : World) : World :=
  if decide (use_count (listener w) p = 0)
  then mkWorld (listener w) (delete (sp_get p) (heap w)) (trace w)
  else w.

(** [shared_ptr::~shared_ptr()] *)
Definition release (p : shared_ptr) : M unit := λ w, Returned tt (released p w).

(** A block with a local shared pointer [p]: the pointer is destroyed
    when the block is left, at its end or by an exception. *)
Definition with_local {A} (p : shared_ptr) (body : M A) : M A :=
  λ w, match body w with
       | Returned a w' => Returned a (released p w')
       | Thrown e w' => Thrown e (released p w')
       end.

(** [std::map::erase(key)] on the map of the category: the entry goes,
    and with it the shared pointer it held. *)
Definition erase (feature : FeatureType) (id : ID) : M unit :=
  do l <- get_listener;
  do _ <- put_listener (set_store feature (delete id (store feature l)) l);
  do _ <- match store feature l !! id with
          | Some p => release p
          | None => ret tt
          end;
  emit (EvErase feature id).

(** [std::make_shared<T>(id, ...)]: a new object at an address that holds none. *)
Definition make_shared (feature : FeatureType) (id : ID) : M shared_ptr :=
  λ w,
    let a := fresh (dom (heap w)) in
    Returned (Shared a)
      (mkWorld (listener w)
               (<[a := mkTracker id feature Constructed]> (heap w))
               (trace w ++ [EvMakeShared feature id (Shared a)])).

(** [p->init()], dispatched on the class of the object: hydrates the
    object, or throws and leaves it as it was. The handler calls it on
    the pointer [make_shared] has just returned, so the object is there. *)
Definition init (p : shared_ptr) : M unit :=
  λ w,
    match heap w !! sp_get p with
    | Some o =>
        match init_hook (kind o) (id_ o) with
        | Some d =>
            Returned tt
              (mkWorld (listener w)
                       (<[sp_get p := mkTracker (id_ o) (kind o) (Initialised d)]> (heap w))
                       (trace w ++ [EvInit p]))
        | None => throw (InitFault (kind o) (id_ o)) w
        end
    | None => ret tt w
    end.

(** [std::map::insert({id, p})]: a key already present keeps its entry. *)
Definition insert_entry (feature : FeatureType) (id : ID) (p : shared_ptr) : M unit :=
  do l <- get_listener;
  do _ <- put_listener
       (set_store feature
          (match store feature l !! id with
           | Some _ => store feature l
           | None => <[id := p]> (store feature l)
           end) l);
  emit (EvInsert feature id p).

(** *** The sets computed by the handler *)

(** Lines 134-138: the received ids, inserted one by one into a set. *)
Definition new_ids_of (tracked : list string) : gset ID :=
  foldl (λ new_ids id, {[ id ]} ∪ new_ids) ∅ tracked.

(** The loop shared by the four cases of the first switch: the keys of a map. *)
Definition keys_of (m : gmap ID shared_ptr) : gset ID :=
  foldl (λ current_ids kv, {[ kv.1 ]} ∪ current_ids) ∅ (map_iter m).

(** Lines 143-171. *)
Definition current_ids_of (feature : FeatureType) (l : HRIListener Callback) : gset ID :=
  match feature with
  | face => keys_of (faces l)
  | body => keys_of (bodies l)
  | voice => keys_of (voices l)
  | person => keys_of (persons l)
  end.

(** Lines 175-181. *)
Definition to_add_of (new_ids current_ids : gset ID) : gset ID :=
  foldl (λ to_add id, if decide (id ∈ current_ids) then to_add else {[ id ]} ∪ to_add)
        ∅ (set_iter new_ids).

(** Lines 183-189. *)
Definition to_remove_of (new_ids current_ids : gset ID) : gset ID :=
  foldl (λ to_remove id, if decide (id ∈ new_ids) then to_remove else {[ id ]} ∪ to_remove)
        ∅ (set_iter current_ids).

(** The body of the loops of the last switch: construct, hydrate,
    insert; the local pointer lives until the iteration is left. *)
Definition add_entity (feature : FeatureType) (id : ID) : M unit :=
  do p <- make_shared feature id;
  with_local p
    (do _ <- init p;
     insert_entry feature id p).

(** [HRIListener::onTrackedFeature] (src/hri.cpp, lines 129-254). *)
Definition onTrackedFeature (feature : FeatureType) (tracked : list string) : M unit :=
  let new_ids := new_ids_of tracked in
  do l <- get_listener;
  let current_ids := current_ids_of feature l in
  let to_add := to_add_of new_ids current_ids in
  let to_remove := to_remove_of new_ids current_ids in
  do _ <- match feature with
          | face => for_each (set_iter to_remove) (λ id, erase face id)
          | body => for_each (set_iter to_remove) (λ id, erase body id)
          | voice => for_each (set_iter to_remove) (λ id, erase voice id)
          | person => for_each (set_iter to_remove) (λ id, erase person id)
          end;
  match feature with
  | face => for_each (set_iter to_add) (λ id, add_entity face id)
  | body => for_each (set_iter to_add) (λ id, add_entity body id)
  | voice => for_each (set_iter to_add) (λ id, add_entity voice id)
  | person => for_each (set_iter to_add) (λ id, add_entity person id)
  end.

(** The sets [to_add] and [to_remove] the handler computes in world [w]. *)
Definition to_add (feature : FeatureType) (tracked : list string) (w : World) : gset ID :=
  to_add_of (new_ids_of tracked) (current_ids_of feature (listener w)).

Definition to_remove (feature : FeatureType) (tracked : list string) (w : World) : gset ID :=
  to_remove_of (new_ids_of tracked) (current_ids_of feature (listener w)).

(** *** Notions used to state the properties *)

(** The operations a computation performs when started in [w]: what it
    appends to the trace, whether it returns or throws. *)
Definition performed {A} (m : M A) (w : World) : list (Event Callback) :=
  drop (length (trace w)) (trace (final (m w))).

(** The invocations of callbacks recorded in a trace. *)
Definition notifications (t : list (Event Callback)) : list (Event Callback) :=
  filter (λ e, is_notify e = true) t.

(** The ids erased, and the ids inserted, in the order of the trace. *)
Definition erased_ids (t : list (Event Callback)) : list ID :=
  omap (λ e, match e with EvErase _ id => Some id | _ => None end) t.

Definition inserted_ids (t : list (Event Callback)) : list ID :=
  omap (λ e, match e with EvInsert _ id _ => Some id | _ => None end) t.

(** The ids of a list whose [init()] succeeds, up to the first that faults. *)
Fixpoint hydrated_prefix (feature : FeatureType) (ids : list ID) : list ID :=
  match ids with
  | [] => []
  | id :: ids' =>
      match init_hook feature id with
      | Some _ => id :: hydrated_prefix feature ids'
      | None => []
      end
  end.

(** The first id of a list whose [init()] faults. *)
Fixpoint first_fault (feature : FeatureType) (ids : list ID) : option ID :=
  match ids with
  | [] => None
  | id :: ids' =>
      match init_hook feature id with
      | Some _ => first_fault feature ids'
      | None => Some id
      end
  end.

(** A map after [erase] has been called on each id of a list. *)
Definition erase_all (ids : list ID) (m : gmap ID shared_ptr) : gmap ID shared_ptr :=
  foldl (λ m id, delete id m) m ids.

(** The world between the two last switch statements of the handler. *)
Definition after_removal (feature : FeatureType) (tracked : list string) (w : World) : World :=
  final (for_each (set_iter (to_remove feature tracked w)) (λ id, erase feature id) w).

(** An operation of the addition phase started in [w]: it works on an
    object that [w] does not hold. *)
Definition addition_event (w : World) (e : Event Callback) : Prop :=
  match e with
  | EvMakeShared _ _ p | EvInit p | EvInsert _ _ p => heap w !! sp_get p = None
  | EvErase _ _ | EvNotify _ _ _ => False
  end.

(** What the additions of one category may change between two worlds:
    nothing of the other categories and of the callbacks, no object and
    no entry that was there; each new entry points to a new object,
    hydrated, of the entry's id; and every operation is on a new object. *)
Record grows (feature : FeatureType) (w w' : World) : Prop := mkGrows {
  grows_others : ∀ f', f' ≠ feature → store f' (listener w') = store f' (listener w);
  grows_callbacks : ∀ f', callbacks f' (listener w') = callbacks f' (listener w);
  grows_heap : ∀ a o, heap w !! a = Some o → heap w' !! a = Some o;
  grows_kept : ∀ k p, store feature (listener w) !! k = Some p →
                      store feature (listener w') !! k = Some p;
  grows_new : ∀ k p, store feature (listener w') !! k = Some p →
                store feature (listener w) !! k = Some p ∨
                (heap w !! sp_get p = None ∧
                 ∃ d, heap w' !! sp_get p = Some (mkTracker k feature (Initialised d)));
  grows_trace : ∃ t, trace w' = trace w ++ t ∧ Forall (addition_event w) t;
}.

(** *** Getters and registration *)

(** The loop of [getFaces], [getBodies] and [getVoices]:
    [result[f.first] = f.second] into an empty map of weak pointers. *)
Definition weak_copy (m : gmap ID shared_ptr) : gmap ID weak_ptr :=
  foldl (λ result f, <[f.1 := weak_of f.2]> result) ∅ (map_iter m).

Definition getFaces (l : HRIListener Callback) : gmap ID weak_ptr := weak_copy (faces l).
Definition getBodies (l : HRIListener Callback) : gmap ID weak_ptr := weak_copy (bodies l).
Definition getVoices (l : HRIListener Callback) : gmap ID weak_ptr := weak_copy (voices l).

(** [return persons;] *)
Definition getPersons (l : HRIListener Callback) : gmap ID shared_ptr := persons l.

(** [face_callbacks.push_back(callback)] and its three siblings. *)
Definition onFace (callback : Callback) (l : HRIListener Callback) : HRIListener Callback :=
  mkListener (faces l) (face_callbacks l ++ [callback]) (bodies l) (body_callbacks l)
    (voices l) (voice_callbacks l) (persons l) (person_callbacks l).

Definition onBody (callback : Callback) (l : HRIListener Callback) : HRIListener Callback :=
  mkListener (faces l) (face_callbacks l) (bodies l) (body_callbacks l ++ [callback])
    (voices l) (voice_callbacks l) (persons l) (person_callbacks l).

Definition onVoice (callback : Callback) (l : HRIListener Callback) : HRIListener Callback :=
  mkListener (faces l) (face_callbacks l) (bodies l) (body_callbacks l)
    (voices l) (voice_callbacks l ++ [callback]) (persons l) (person_callbacks l).

Definition onPerson (callback : Callback) (l : HRIListener Callback) : HRIListener Callback :=
  mkListener (faces l) (face_callbacks l) (bodies l) (body_callbacks l)
    (voices l) (voice_callbacks l) (persons l) (person_callbacks l ++ [callback]).

(** A listener right after construction, and the world around it. *)
Definition empty_listener : HRIListener Callback :=
  mkListener ∅ [] ∅ [] ∅ [] ∅ [].

Definition empty_world : World := mkWorld empty_listener ∅ [].

End Listener.

Arguments Returned {Detail Callback A} _ _.
Arguments Thrown {Detail Callback A} _ _.
Arguments World : clear implicits.
Arguments Outcome : clear implicits.
Arguments M : clear implicits.

(** ** Subscriptions, and the listener in use *)

Global Instance FeatureType_countable : Countable FeatureType.
Proof.
  refine (inj_countable'
            (λ f, match f with face => 0 | body => 1 | voice => 2 | person => 3 end)
            (λ n, match n with 0 => face | 1 => body | 2 => voice | _ => person end) _).
  by intros [].
Defined.

(** What the listener gives to [ros::NodeHandle::subscribe]: the topic,
    the queue size, and the category bound as first argument of the
    handler. *)
Record Subscriber := mkSubscriber {
  sub_topic : string;
  sub_queue_size : nat;
  sub_feature : FeatureType;
}.

Global Instance Subscriber_eq_dec : EqDecision Subscriber.
Proof. solve_decision. Defined.

(** [node_.subscribe<hri_msgs::IdsList>(topic, queue_size,
    bind(&HRIListener::onTrackedFeature, this, feature, _1))] *)
Definition subscribe (topic : string) (queue_size : nat) (feature : FeatureType) : Subscriber :=
  mkSubscriber topic queue_size feature.

(** [HRIListener::init] (src/hri.cpp, lines 108-127): four assignments
    [feature_subscribers_[feature] = node_.subscribe(...)]. *)
Definition HRIListener_init (feature_subscribers_ : gmap FeatureType Subscriber)
    : gmap FeatureType Subscriber :=
  let subs1 := <[face := subscribe "/humans/faces/tracked" 1 face]> feature_subscribers_ in
  let subs2 := <[body := subscribe "/humans/bodies/tracked" 1 body]> subs1 in
  let subs3 := <[voice := subscribe "/humans/voices/tracked" 1 voice]> subs2 in
  <[person := subscribe "/humans/persons/tracked" 1 person]> subs3.

Section Lifecycle.
Context {Detail Callback : Type}.
Variable init_hook : FeatureType → ID → option Detail.

(** The callback a subscriber runs on a received list of ids. *)
Definition sub_callback (s : Subscriber) (tracked : list string) : M Detail Callback unit :=
  onTrackedFeature init_hook (sub_feature s) tracked.

(** [onFace], [onBody], [onVoice] or [onPerson], by category. *)
Definition register (feature : FeatureType) (callback : Callback)
    (l : HRIListener Callback) : HRIListener Callback :=
  match feature with
  | face => onFace callback l
  | body => onBody callback l
  | voice => onVoice callback l
  | person => onPerson callback l
  end.

(** Registrations made one after the other. *)
Definition register_all (regs : list (FeatureType * Callback))
    (l : HRIListener Callback) : HRIListener Callback :=
  foldl (λ l r, register r.1 r.2 l) l regs.

(** The callbacks a list of registrations holds for one category, in order. *)
Definition registered_for (feature : FeatureType) (regs : list (FeatureType * Callback))
    : list Callback :=
  (filter (λ r, r.1 = feature) regs).*2.

(** A world whose listener has gone through [g]. *)
Definition with_listener (g : HRIListener Callback → HRIListener Callback)
    (w : World Detail Callback) : World Detail Callback :=
  mkWorld (g (listener w)) (heap w) (trace w).

Definition map_outcome {A} (g : World Detail Callback → World Detail Callback)
    (o : Outcome Detail Callback A) : Outcome Detail Callback A :=
  match o with
  | Returned a w => Returned a (g w)
  | Thrown e w => Thrown e (g w)
  end.

(** Lists of ids received one after the other, each for its category;
    an exception leaving the handler ends the run. *)
Definition announce_all (anns : list (FeatureType * list string)) : M Detail Callback unit :=
  for_each anns (λ a, onTrackedFeature init_hook a.1 a.2).

(** The last list received for a category, if any. *)
Fixpoint last_announced (feature : FeatureType) (anns : list (FeatureType * list string))
    : option (list string) :=
  match anns with
  | [] => None
  | a :: anns' =>
      match last_announced feature anns' with
      | Some ids => Some ids
      | None => if decide (a.1 = feature) then Some a.2 else None
      end
  end.

(** The worlds a listener can be in: newly constructed, then any run of
    registrations and of handler calls, returned or left by an exception. *)
Inductive reachable : World Detail Callback → Prop :=
  | reachable_new : reachable empty_world
  | reachable_register feature callback w :
      reachable w → reachable (with_listener (register feature callback) w)
  | reachable_announce feature tracked w :
      reachable w → reachable (final (onTrackedFeature init_hook feature tracked w)).

(** Every entry of every map points to a hydrated object of the entry's
    id and category. *)
Definition consistent (w : World Detail Callback) : Prop :=
  ∀ feature id p,
    store feature (listener w) !! id = Some p →
    ∃ d, heap w !! sp_get p = Some (mkTracker id feature (Initialised d)).

(** Every object of the heap is held by an entry of a map. *)
Definition no_leak (w : World Detail Callback) : Prop :=
  ∀ a o, heap w !! a = Some o →
         ∃ feature id, store feature (listener w) !! id = Some (Shared a).

(** The operations that construct, hydrate and insert one entity. *)
Definition addition_of (feature : FeatureType) (id : ID) (p : shared_ptr)
    : list (Event Callback) :=
  [EvMakeShared feature id p; EvInit p; EvInsert feature id p].


End Lifecycle.

(** * Properties *)

(** ** Iteration over sets and maps *)

Section Iteration.
Implicit Types (s : gset ID).

Lemma set_iter_perm s : set_iter s ≡ₚ elements s.
Proof. apply merge_sort_Permutation. Qed.

Lemma elem_of_set_iter s x : x ∈ set_iter s ↔ x ∈ s.
Proof. rewrite set_iter_perm. apply elem_of_elements. Qed.

Lemma NoDup_set_iter s : NoDup (set_iter s).
Proof. rewrite set_iter_perm. apply NoDup_elements. Qed.

Lemma set_iter_sorted s : Sorted ID_le (set_iter s).
Proof. apply (Sorted_merge_sort ID_le). Qed.

Lemma set_iter_empty : set_iter ∅ = [].
Proof. reflexivity. Qed.

Lemma map_iter_perm {V} (m : gmap ID V) : map_iter m ≡ₚ map_to_list m.
Proof. apply merge_sort_Permutation. Qed.

Lemma elem_of_map_iter {V} (m : gmap ID V) k v : (k, v) ∈ map_iter m ↔ m !! k = Some v.
Proof. rewrite map_iter_perm. apply elem_of_map_to_list. Qed.

Lemma NoDup_fst_map_iter {V} (m : gmap ID V) : NoDup (map_iter m).*1.
Proof. rewrite map_iter_perm. apply NoDup_fst_map_to_list. Qed.

Lemma map_iter_sorted {V} (m : gmap ID V) : Sorted key_le (map_iter m).
Proof.
  assert (Total (@key_le V)) by (intros a b; apply (total ID_le)).
  apply (Sorted_merge_sort key_le).
Qed.

Lemma list_to_map_map_iter {V} (m : gmap ID V) : list_to_map (map_iter m) = m.
Proof.
  rewrite <- (list_to_map_to_list m) at 2.
  apply list_to_map_proper; [apply NoDup_fst_map_iter|apply map_iter_perm].
Qed.
End Iteration.

(** ** The sets computed by the handler *)

Section Sets.
Implicit Types (new_ids current_ids : gset ID).

Lemma new_ids_of_spec (tracked : list string) : new_ids_of tracked = list_to_set tracked.
Proof.
  unfold new_ids_of.
  assert (G : ∀ (acc : gset ID), foldl (λ new_ids id, {[ id ]} ∪ new_ids) acc tracked
                = list_to_set tracked ∪ acc).
  { induction tracked as [|x l IH]; intros acc; simpl.
    - set_solver.
    - rewrite IH. set_solver. }
  rewrite G. set_solver.
Qed.

Lemma keys_of_spec (m : gmap ID shared_ptr) : keys_of m = dom m.
Proof.
  unfold keys_of.
  assert (G : ∀ (l : list (ID * shared_ptr)) (acc : gset ID),
             foldl (λ current_ids kv, {[ kv.1 ]} ∪ current_ids) acc l
             = list_to_set l.*1 ∪ acc).
  { induction l as [|x l IH]; intros acc; simpl.
    - set_solver.
    - rewrite IH. set_solver. }
  rewrite G. apply set_eq. intros k.
  rewrite elem_of_union, elem_of_list_to_set, elem_of_dom, list_elem_of_fmap.
  split.
  - intros [[[k' v] [-> Hin]] | Hin]; [|set_solver].
    apply elem_of_map_iter in Hin. eauto.
  - intros [v Hv]. left. exists (k, v). split; [done|]. by apply elem_of_map_iter.
Qed.

(** The shape shared by the two difference loops. *)
Lemma fold_skip_spec (P : ID → Prop) `{∀ x, Decision (P x)}
    (l : list ID) (acc : gset ID) x :
  x ∈ foldl (λ a id, if decide (P id) then a else {[ id ]} ∪ a) acc l
  ↔ x ∈ acc ∨ (x ∈ l ∧ ¬ P x).
Proof.
  revert acc. induction l as [|y l IH]; intros acc; simpl.
  - set_solver.
  - rewrite IH. destruct (decide (P y)); set_solver.
Qed.

Lemma to_add_of_spec new_ids current_ids :
  to_add_of new_ids current_ids = new_ids ∖ current_ids.
Proof.
  apply set_eq. intros x. unfold to_add_of.
  rewrite (fold_skip_spec (λ id, id ∈ current_ids)), elem_of_set_iter. set_solver.
Qed.

Lemma to_remove_of_spec new_ids current_ids :
  to_remove_of new_ids current_ids = current_ids ∖ new_ids.
Proof.
  apply set_eq. intros x. unfold to_remove_of.
  rewrite (fold_skip_spec (λ id, id ∈ new_ids)), elem_of_set_iter. set_solver.
Qed.

Lemma weak_copy_lookup (m : gmap ID shared_ptr) k : weak_copy m !! k = weak_of <$> m !! k.
Proof.
  unfold weak_copy.
  assert (G : ∀ (l : list (ID * shared_ptr)) (acc : gmap ID weak_ptr),
             NoDup l.*1 →
             foldl (λ result f, <[f.1 := weak_of f.2]> result) acc l !! k
             = match list_to_map (M := gmap ID shared_ptr) l !! k with
               | Some p => Some (weak_of p)
               | None => acc !! k
               end).
  { induction l as [|[k' v] l IH]; intros acc Hnd; simpl.
    - by rewrite lookup_empty.
    - apply NoDup_cons in Hnd as [Hk' Hnd]. rewrite IH by done.
      destruct (decide (k = k')) as [->|Hne].
      + rewrite lookup_insert_eq.
        rewrite (not_elem_of_list_to_map_1 _ k') by done.
        by rewrite lookup_insert_eq.
      + rewrite !lookup_insert_ne by done. done. }
  rewrite G by apply NoDup_fst_map_iter.
  rewrite list_to_map_map_iter. destruct (m !! k); simpl; [done|apply lookup_empty].
Qed.

Lemma weak_copy_spec (m : gmap ID shared_ptr) : weak_copy m = weak_of <$> m.
Proof. apply map_eq. intros k. rewrite weak_copy_lookup. by rewrite lookup_fmap. Qed.
End Sets.

(** ** The handler, step by step *)

Section Handler.
Context {Detail Callback : Type}.
Variable init_hook : FeatureType → ID → option Detail.

Implicit Types (w : World Detail Callback) (l : HRIListener Callback).
Implicit Types (f feature : FeatureType) (tracked ids : list string).
Implicit Types (t : list (Event Callback)).

(** *** Member access *)

Lemma store_set_store f m l : store f (set_store f m l) = m.
Proof. by destruct f. Qed.

Lemma store_set_store_ne f f' m l : f' ≠ f → store f' (set_store f m l) = store f' l.
Proof. by destruct f, f'. Qed.

Lemma callbacks_set_store f f' m l : callbacks f' (set_store f m l) = callbacks f' l.
Proof. by destruct f, f'. Qed.

Lemma set_store_set_store f m m' l : set_store f m (set_store f m' l) = set_store f m l.
Proof. by destruct f. Qed.

Lemma set_store_id f l : set_store f (store f l) l = l.
Proof. by destruct f, l. Qed.

Lemma current_ids_of_spec f l : current_ids_of f l = dom (store f l).
Proof. destruct f; apply keys_of_spec. Qed.

Lemma to_add_spec f tracked w :
  to_add f tracked w = list_to_set tracked ∖ dom (store f (listener w)).
Proof. unfold to_add. by rewrite to_add_of_spec, new_ids_of_spec, current_ids_of_spec. Qed.

Lemma to_remove_spec f tracked w :
  to_remove f tracked w = dom (store f (listener w)) ∖ list_to_set tracked.
Proof.
  unfold to_remove. by rewrite to_remove_of_spec, new_ids_of_spec, current_ids_of_spec.
Qed.

(** *** Traces *)

Lemma performed_app {A} (m : M Detail Callback A) w t :
  trace (final (m w)) = trace w ++ t → performed m w = t.
Proof. intros E. unfold performed. rewrite E. apply drop_app_length. Qed.

Lemma notifications_app t1 t2 :
  notifications (t1 ++ t2) = notifications t1 ++ notifications t2.
Proof. apply filter_app. Qed.

Lemma erased_ids_app t1 t2 : erased_ids (t1 ++ t2) = erased_ids t1 ++ erased_ids t2.
Proof. apply omap_app. Qed.

Lemma inserted_ids_app t1 t2 : inserted_ids (t1 ++ t2) = inserted_ids t1 ++ inserted_ids t2.
Proof. apply omap_app. Qed.

Lemma erased_ids_erase f ids : erased_ids (Callback := Callback) (EvErase f <$> ids) = ids.
Proof. induction ids as [|x ids IH]; [done|]. cbn. by rewrite <- IH at 2. Qed.

Lemma inserted_ids_erase f ids : inserted_ids (Callback := Callback) (EvErase f <$> ids) = [].
Proof. induction ids as [|x ids IH]; [done|]. cbn. exact IH. Qed.

Lemma notifications_erase f ids : notifications (Callback := Callback) (EvErase f <$> ids) = [].
Proof. induction ids as [|x ids IH]; [done|]. cbn. exact IH. Qed.

(** *** The removals *)

Lemma lookup_erase_all ids (m : gmap ID shared_ptr) k :
  erase_all ids m !! k = if decide (k ∈ ids) then None else m !! k.
Proof.
  unfold erase_all. revert m. induction ids as [|x ids IH]; intros m; cbn [foldl].
  - case_decide; [set_solver|done].
  - rewrite IH. destruct (decide (k = x)) as [->|Hne].
    + rewrite lookup_delete_eq. repeat case_decide; set_solver.
    + rewrite lookup_delete_ne by done. repeat case_decide; set_solver.
Qed.

(** *** Ownership *)

Lemma use_count_0 l p : use_count l p = 0 ↔ ∀ f k, store f l !! k ≠ Some p.
Proof.
  assert (G : ∀ m : gmap ID shared_ptr,
             size (filter (λ kv, kv.2 = p) m) = 0 ↔ ∀ k, m !! k ≠ Some p).
  { intros m. rewrite map_size_empty_iff, map_empty_filter, map_Forall_lookup. cbn.
    split.
    - intros H k E. by apply (H k p).
    - intros H k x E ->. by apply (H k). }
  unfold use_count. split.
  - intros H f k.
    apply Nat.eq_add_0 in H as [H H4]. apply Nat.eq_add_0 in H as [H H3].
    apply Nat.eq_add_0 in H as [H1 H2]. destruct f; apply G; assumption.
  - intros H.
    rewrite (proj2 (G (faces l))), (proj2 (G (bodies l))),
      (proj2 (G (voices l))), (proj2 (G (persons l))); [done|..].
    + apply (H person).
    + apply (H voice).
    + apply (H body).
    + apply (H face).
Qed.

Lemma use_count_held f l k p : store f l !! k = Some p → use_count l p ≠ 0.
Proof. intros E H. by apply (proj1 (use_count_0 l p) H f k). Qed.

Lemma released_listener p w : listener (released p w) = listener w.
Proof. unfold released. by case_decide. Qed.

Lemma released_trace p w : trace (released p w) = trace w.
Proof. unfold released. by case_decide. Qed.

Lemma released_held f k p w :
  store f (listener w) !! k = Some p → released p w = w.
Proof. intros E. unfold released. rewrite decide_False; [done|]. by eapply use_count_held. Qed.

Lemma released_heap_ne p w a : a ≠ sp_get p → heap (released p w) !! a = heap w !! a.
Proof. intros Hne. unfold released. case_decide; [|done]. cbn. by rewrite lookup_delete_ne. Qed.

Lemma released_heap_Some p w a o :
  heap (released p w) !! a = Some o → heap w !! a = Some o.
Proof.
  unfold released. case_decide; [|done]. cbn.
  rewrite lookup_delete_Some. by intros [_ ?].
Qed.

(** *** The removals *)

Lemma erase_run f id w : erase f id w = Returned tt (final (erase f id w)).
Proof. unfold erase, bind, get_listener, put_listener, emit. cbn. by destruct (_ !! id). Qed.

Lemma erase_listener f id w :
  listener (final (erase f id w))
  = set_store f (delete id (store f (listener w))) (listener w).
Proof.
  unfold erase, bind, get_listener, put_listener, emit, release, ret. cbn.
  destruct (_ !! id); cbn; [|done]. by rewrite released_listener.
Qed.

Lemma erase_trace f id w : trace (final (erase f id w)) = trace w ++ [EvErase f id].
Proof.
  unfold erase, bind, get_listener, put_listener, emit, release, ret. cbn.
  destruct (_ !! id); cbn; [|done]. by rewrite released_trace.
Qed.

(** An object is gone after [erase] only if the erased entry held it. *)
Lemma erase_heap_gone f id w a o :
  heap w !! a = Some o → heap (final (erase f id w)) !! a = None →
  store f (listener w) !! id = Some (Shared a).
Proof.
  unfold erase, bind, get_listener, put_listener, emit, release, ret. cbn.
  destruct (store f (listener w) !! id) as [p|]; cbn; [|congruence].
  intros Ho Hgone. destruct (decide (a = sp_get p)) as [->|Hne]; [by destruct p|].
  rewrite released_heap_ne in Hgone by done. cbn in Hgone. congruence.
Qed.

Lemma erase_heap_Some f id w a o :
  heap (final (erase f id w)) !! a = Some o → heap w !! a = Some o.
Proof.
  unfold erase, bind, get_listener, put_listener, emit, release, ret. cbn.
  destruct (store f (listener w) !! id) as [p|]; cbn; [|done].
  by intros ?%released_heap_Some.
Qed.

(** The object of an entry that is still there after [erase] is untouched. *)
Lemma erase_heap_held f f' id w k p :
  store f' (listener (final (erase f id w))) !! k = Some p →
  heap (final (erase f id w)) !! sp_get p = heap w !! sp_get p.
Proof.
  intros Hheld. revert Hheld.
  unfold erase, bind, get_listener, put_listener, emit, release, ret. cbn.
  destruct (store f (listener w) !! id) as [q|]; cbn; [|done].
  rewrite released_listener. cbn. intros Hheld.
  destruct (decide (q = p)) as [->|Hne].
  - by erewrite released_held.
  - rewrite released_heap_ne; [done|]. intros E. apply Hne. destruct p, q. cbn in E. congruence.
Qed.

Lemma erase_loop_cons f x ids w :
  for_each (x :: ids) (λ id, erase f id) w
  = for_each ids (λ id, erase f id) (final (erase f x w)).
Proof.
  cbn [for_each]. unfold bind. pose proof (erase_run f x w) as E.
  by destruct (erase f x w) as [[] w1|].
Qed.

Lemma erase_loop_run f ids w :
  for_each ids (λ id, erase f id) w
  = Returned tt (final (for_each ids (λ id, erase f id) w)).
Proof.
  revert w. induction ids as [|x ids IH]; intros w; [done|].
  rewrite erase_loop_cons. apply IH.
Qed.

Lemma erase_loop_listener f ids w :
  listener (final (for_each ids (λ id, erase f id) w))
  = set_store f (erase_all ids (store f (listener w))) (listener w).
Proof.
  revert w. induction ids as [|x ids IH]; intros w.
  - cbn. by rewrite set_store_id.
  - rewrite erase_loop_cons, IH, erase_listener. cbn.
    by rewrite store_set_store, set_store_set_store.
Qed.

Lemma erase_loop_trace f ids w :
  trace (final (for_each ids (λ id, erase f id) w)) = trace w ++ (EvErase f <$> ids).
Proof.
  revert w. induction ids as [|x ids IH]; intros w.
  - cbn. by rewrite app_nil_r.
  - rewrite erase_loop_cons, IH, erase_trace. cbn. by rewrite <- app_assoc.
Qed.

Lemma erase_loop_heap_Some f ids w a o :
  heap (final (for_each ids (λ id, erase f id) w)) !! a = Some o → heap w !! a = Some o.
Proof.
  revert w. induction ids as [|x ids IH]; intros w; [done|].
  rewrite erase_loop_cons. intros H. by apply IH, erase_heap_Some in H.
Qed.

Lemma erase_loop_heap_held f f' ids w k p :
  store f' (listener (final (for_each ids (λ id, erase f id) w))) !! k = Some p →
  heap (final (for_each ids (λ id, erase f id) w)) !! sp_get p = heap w !! sp_get p.
Proof.
  revert w. induction ids as [|x ids IH]; intros w; [done|].
  rewrite erase_loop_cons. intros Hheld. rewrite (IH _ Hheld).
  apply (erase_heap_held f f' x w k). revert Hheld.
  rewrite erase_loop_listener. destruct (decide (f' = f)) as [->|Hne].
  - rewrite store_set_store, lookup_erase_all. by case_decide.
  - by rewrite store_set_store_ne.
Qed.

Lemma erase_loop_heap_gone f ids w a o :
  heap w !! a = Some o →
  heap (final (for_each ids (λ id, erase f id) w)) !! a = None →
  ∃ id, id ∈ ids ∧ store f (listener w) !! id = Some (Shared a).
Proof.
  revert w. induction ids as [|x ids IH]; intros w Ho Hgone; [cbn in Hgone; congruence|].
  rewrite erase_loop_cons in Hgone.
  destruct (heap (final (erase f x w)) !! a) as [o1|] eqn:E.
  - pose proof (erase_heap_Some _ _ _ _ _ E) as E'. rewrite Ho in E'. injection E' as <-.
    destruct (IH _ E Hgone) as (id & Hin & Hid). exists id. split; [by right|].
    rewrite erase_listener, store_set_store in Hid.
    by apply lookup_delete_Some in Hid as [_ ?].
  - exists x. split; [by left|]. by eapply erase_heap_gone.
Qed.

Lemma listener_after_removal f tracked w :
  listener (after_removal f tracked w)
  = set_store f (erase_all (set_iter (to_remove f tracked w)) (store f (listener w)))
      (listener w).
Proof. apply erase_loop_listener. Qed.

Lemma trace_after_removal f tracked w :
  trace (after_removal f tracked w)
  = trace w ++ (EvErase f <$> set_iter (to_remove f tracked w)).
Proof. apply erase_loop_trace. Qed.

Lemma removal_run f tracked w :
  for_each (set_iter (to_remove f tracked w)) (λ id, erase f id) w
  = Returned tt (after_removal f tracked w).
Proof. apply erase_loop_run. Qed.

Lemma lookup_after_removal f tracked w k :
  store f (listener (after_removal f tracked w)) !! k
  = if decide (k ∈ tracked) then store f (listener w) !! k else None.
Proof.
  rewrite listener_after_removal, store_set_store, lookup_erase_all.
  destruct (store f (listener w) !! k) as [p|] eqn:E.
  - apply (elem_of_dom_2 (D := gset ID)) in E.
    repeat case_decide; try done.
    + rewrite elem_of_set_iter, to_remove_spec in *. set_solver.
    + rewrite elem_of_set_iter, to_remove_spec in *. set_solver.
  - by repeat case_decide.
Qed.

Lemma dom_after_removal f tracked w :
  dom (store f (listener (after_removal f tracked w)))
  = dom (store f (listener w)) ∩ list_to_set tracked.
Proof.
  apply set_eq. intros k.
  rewrite elem_of_intersection, !elem_of_dom, lookup_after_removal, elem_of_list_to_set.
  case_decide; [naive_solver|]. split; [by intros [? ?]|naive_solver].
Qed.

Lemma after_removal_others f f' tracked w :
  f' ≠ f → store f' (listener (after_removal f tracked w)) = store f' (listener w).
Proof. intros Hf. rewrite listener_after_removal. by rewrite store_set_store_ne. Qed.

Lemma after_removal_callbacks f f' tracked w :
  callbacks f' (listener (after_removal f tracked w)) = callbacks f' (listener w).
Proof. rewrite listener_after_removal. by rewrite callbacks_set_store. Qed.

(** The object of an entry that outlives the removals is untouched by them. *)
Lemma after_removal_heap_held f f' tracked w k p :
  store f' (listener (after_removal f tracked w)) !! k = Some p →
  heap (after_removal f tracked w) !! sp_get p = heap w !! sp_get p.
Proof. apply erase_loop_heap_held. Qed.

Lemma after_removal_heap_Some f tracked w a o :
  heap (after_removal f tracked w) !! a = Some o → heap w !! a = Some o.
Proof. apply erase_loop_heap_Some. Qed.

(** An object the removals destroy was held by an entry they erase. *)
Lemma after_removal_heap_gone f tracked w a o :
  heap w !! a = Some o →
  heap (after_removal f tracked w) !! a = None →
  ∃ id, id ∈ to_remove f tracked w ∧ store f (listener w) !! id = Some (Shared a).
Proof.
  intros Ho Hgone. destruct (erase_loop_heap_gone f _ w a o Ho Hgone) as (id & Hin & Hid).
  exists id. split; [by apply elem_of_set_iter|done].
Qed.

(** *** The additions *)

Lemma first_fault_None f ids :
  first_fault init_hook f ids = None ↔ ∀ id, id ∈ ids → is_Some (init_hook f id).
Proof.
  induction ids as [|x ids IH]; cbn.
  - split; [|done]. intros _ id Hin. by apply elem_of_nil in Hin.
  - destruct (init_hook f x) as [d|] eqn:E.
    + rewrite IH. split.
      * intros Hall id [->|Hin]%elem_of_cons; [by rewrite E|auto].
      * intros Hall id Hin. apply Hall. by right.
    + split; [done|]. intros Hall. destruct (Hall x) as [d Hd]; [by left|congruence].
Qed.

Lemma hydrated_prefix_all f ids :
  first_fault init_hook f ids = None → hydrated_prefix init_hook f ids = ids.
Proof.
  induction ids as [|x ids IH]; cbn; [done|].
  destruct (init_hook f x); [|done]. intros Hn. by rewrite IH.
Qed.

Lemma hydrated_prefix_elem_of f ids x :
  x ∈ hydrated_prefix init_hook f ids → x ∈ ids ∧ is_Some (init_hook f x).
Proof.
  induction ids as [|y ids IH]; cbn.
  - by intros ?%elem_of_nil.
  - destruct (init_hook f y) as [d|] eqn:E; [|by intros ?%elem_of_nil].
    intros [->|Hin]%elem_of_cons.
    + split; [by left|by rewrite E].
    + destruct (IH Hin). split; [by right|done].
Qed.

Lemma first_fault_Some f ids id :
  first_fault init_hook f ids = Some id →
  id ∈ ids ∧ init_hook f id = None ∧ id ∉ hydrated_prefix init_hook f ids.
Proof.
  intros Hf. assert (Hnone : init_hook f id = None ∧ id ∈ ids).
  { induction ids as [|y ids IH]; cbn in Hf; [done|].
    destruct (init_hook f y) as [d|] eqn:E.
    - destruct (IH Hf). split; [done|by right].
    - injection Hf as <-. split; [done|by left]. }
  destruct Hnone as [Hnone Hin]. repeat split; try done.
  intros [_ [d Hd]]%hydrated_prefix_elem_of. congruence.
Qed.

Lemma fresh_heap_None w : heap w !! fresh (dom (heap w)) = None.
Proof. apply not_elem_of_dom. apply is_fresh. Qed.

Lemma add_entity_run f id w :
  add_entity init_hook f id w =
  let a := fresh (dom (heap w)) in
  match init_hook f id with
  | Some d =>
      Returned tt
        (released (Shared a)
           (mkWorld
              (set_store f
                 (match store f (listener w) !! id with
                  | Some _ => store f (listener w)
                  | None => <[id := Shared a]> (store f (listener w))
                  end) (listener w))
              (<[a := mkTracker id f (Initialised d)]>
                 (<[a := mkTracker id f Constructed]> (heap w)))
              (trace w ++ [EvMakeShared f id (Shared a); EvInit (Shared a);
                           EvInsert f id (Shared a)])))
  | None =>
      Thrown (InitFault f id)
        (released (Shared a)
           (mkWorld (listener w) (<[a := mkTracker id f Constructed]> (heap w))
                    (trace w ++ [EvMakeShared f id (Shared a)])))
  end.
Proof.
  unfold add_entity, bind, make_shared, with_local, init. cbn.
  rewrite lookup_insert_eq. cbn.
  destruct (init_hook f id); [|done].
  unfold insert_entry, bind, get_listener, put_listener, emit. cbn.
  by rewrite <- !app_assoc.
Qed.

(** A relation that every iteration maintains holds across the loop,
    whether the loop returns or is left by an exception. *)
Lemma for_each_inv {A} (R : relation (World Detail Callback))
    `{!Reflexive R, !Transitive R} (body : A → M Detail Callback unit) (xs : list A) :
  (∀ x w, R w (final (body x w))) → ∀ w, R w (final (for_each xs body w)).
Proof.
  intros Hbody. induction xs as [|x xs IH]; intros w; simpl.
  - reflexivity.
  - unfold bind. specialize (Hbody x w). destruct (body x w) as [[] w1|e w1]; simpl in *.
    + transitivity w1; [done|apply IH].
    + done.
Qed.

Global Instance grows_refl f : Reflexive (grows (Detail := Detail) (Callback := Callback) f).
Proof. intros w. split; auto. exists []. by rewrite app_nil_r. Qed.

Lemma addition_event_mono w w' e :
  (∀ a o, heap w !! a = Some o → heap w' !! a = Some o) →
  addition_event w' e → addition_event w e.
Proof.
  intros Hmono. destruct e as [| ? ? p | p | ? ? p |]; cbn; try done;
    (destruct (heap w !! sp_get p) as [o|] eqn:E; [|done]);
    apply Hmono in E; congruence.
Qed.

Global Instance grows_trans f : Transitive (grows (Detail := Detail) (Callback := Callback) f).
Proof.
  intros w1 w2 w3 [O1 C1 H1 K1 N1 (t1 & T1 & F1)] [O2 C2 H2 K2 N2 (t2 & T2 & F2)]. split.
  - intros f' Hf. by rewrite O2, O1.
  - intros f'. by rewrite C2, C1.
  - auto.
  - auto.
  - intros k p Hk. destruct (N2 k p Hk) as [Hk2|[Hnone [d Hd]]].
    + destruct (N1 k p Hk2) as [Hk1|[Hnone [d Hd]]]; [by left|].
      right. split; [done|]. exists d. by apply H2.
    + right. split; [|by exists d].
      destruct (heap w1 !! sp_get p) as [o|] eqn:E; [|done].
      apply H1 in E. congruence.
  - exists (t1 ++ t2). rewrite T2, T1, app_assoc. split; [done|].
    apply Forall_app. split; [done|].
    eapply Forall_impl; [exact F2|]. intros e. by apply addition_event_mono.
Qed.

Lemma add_entity_grows f id w : grows f w (final (add_entity init_hook f id w)).
Proof.
  rewrite add_entity_run. cbn zeta.
  pose proof (fresh_heap_None w) as Hfresh.
  set (a := fresh (dom (heap w))) in *.
  assert (Hother : ∀ b o, heap w !! b = Some o → b ≠ sp_get (Shared a)).
  { intros b o Hb. cbn. congruence. }
  destruct (init_hook f id) as [d|]; cbn [final].
  - split; rewrite ?released_listener, ?released_trace; cbn [listener trace].
    + intros f' Hf. by rewrite store_set_store_ne.
    + intros f'. by rewrite callbacks_set_store.
    + intros b o Hb. pose proof (Hother b o Hb) as Hne.
      rewrite released_heap_ne by done. cbn in *.
      rewrite !lookup_insert_ne by congruence. done.
    + intros k p Hk. rewrite store_set_store.
      destruct (store f (listener w) !! id) eqn:E; [done|].
      rewrite lookup_insert_ne by congruence. done.
    + intros k p. rewrite store_set_store.
      destruct (store f (listener w) !! id) eqn:E; [by left|].
      destruct (decide (k = id)) as [->|Hne].
      * rewrite lookup_insert_eq. intros [= <-]. right.
        split; [done|]. exists d.
        erewrite (released_held f id).
        -- cbn. by rewrite lookup_insert_eq.
        -- cbn. by rewrite store_set_store, lookup_insert_eq.
      * rewrite lookup_insert_ne by done. by left.
    + eexists. split; [reflexivity|]. by repeat constructor.
  - split; rewrite ?released_listener, ?released_trace; cbn [listener trace]; auto.
    + intros b o Hb. pose proof (Hother b o Hb) as Hne.
      rewrite released_heap_ne by done. cbn in *.
      rewrite lookup_insert_ne by congruence. done.
    + eexists. split; [reflexivity|]. by repeat constructor.
Qed.

Lemma add_loop_grows f ids w :
  grows f w (final (for_each ids (λ id, add_entity init_hook f id) w)).
Proof. apply (for_each_inv (grows f)). intros x w'. apply add_entity_grows. Qed.

(** The exact course of the additions: where they stop, which keys
    they leave, which operations they perform. *)
Lemma add_loop_course f ids w :
  let out := for_each ids (λ id, add_entity init_hook f id) w in
  out = match first_fault init_hook f ids with
        | None => Returned tt (final out)
        | Some id => Thrown (InitFault f id) (final out)
        end
  ∧ dom (store f (listener (final out)))
    = dom (store f (listener w)) ∪ list_to_set (hydrated_prefix init_hook f ids)
  ∧ ∃ t, trace (final out) = trace w ++ t
         ∧ erased_ids t = []
         ∧ inserted_ids t = hydrated_prefix init_hook f ids
         ∧ notifications t = [].
Proof.
  revert w. induction ids as [|id ids IH]; intros w; cbn zeta.
  - cbn. split; [done|]. split; [set_solver|]. exists []. by rewrite app_nil_r.
  - cbn [for_each first_fault hydrated_prefix]. unfold bind.
    rewrite add_entity_run. cbn zeta.
    set (a := fresh (dom (heap w))).
    destruct (init_hook f id) as [d|].
    + match goal with |- context [for_each ids _ ?w1] => specialize (IH w1) end.
      cbn zeta in IH. destruct IH as (Hout & Hdom & t & Ht & He & Hi & Hn).
      split; [exact Hout|]. split.
      * rewrite Hdom, released_listener. cbn [listener]. rewrite store_set_store.
        destruct (store f (listener w) !! id) eqn:E.
        -- apply (elem_of_dom_2 (D := gset ID)) in E. set_solver.
        -- rewrite dom_insert_L. set_solver.
      * eexists ([_; _; _] ++ t). rewrite Ht, released_trace. cbn [trace].
        rewrite <- app_assoc. split; [reflexivity|].
        unfold erased_ids, inserted_ids, notifications in *.
        rewrite !omap_app, filter_app, He, Hi, Hn. done.
    + cbn [final]. rewrite released_listener, released_trace.
      split; [done|]. split; [cbn; set_solver|].
      eexists [_]. cbn [trace]. split; [reflexivity|]. done.
Qed.

(** *** The handler as a whole *)

Lemma onTrackedFeature_run f tracked w :
  onTrackedFeature init_hook f tracked w =
  for_each (set_iter (to_add f tracked w)) (λ id, add_entity init_hook f id)
           (after_removal f tracked w).
Proof.
  unfold onTrackedFeature, bind, get_listener, to_add, to_remove, after_removal.
  destruct f; rewrite erase_loop_run; reflexivity.
Qed.

Lemma onTrackedFeature_outcome f tracked w :
  let out := onTrackedFeature init_hook f tracked w in
  out = match first_fault init_hook f (set_iter (to_add f tracked w)) with
        | None => Returned tt (final out)
        | Some id => Thrown (InitFault f id) (final out)
        end.
Proof. cbn zeta. rewrite onTrackedFeature_run. apply add_loop_course. Qed.

Lemma onTrackedFeature_completes_iff f tracked w :
  completes (onTrackedFeature init_hook f tracked w)
  ↔ ∀ id, id ∈ to_add f tracked w → is_Some (init_hook f id).
Proof.
  pose proof (onTrackedFeature_outcome f tracked w) as Hout. cbn zeta in Hout.
  rewrite Hout.
  destruct (first_fault init_hook f (set_iter (to_add f tracked w))) as [id|] eqn:E.
  - apply first_fault_Some in E as (Hin & Hnone & _). apply elem_of_set_iter in Hin.
    split; [done|]. intros Hall. destruct (Hall id Hin). congruence.
  - split; [|done]. intros _ id Hin.
    apply (proj1 (first_fault_None f _) E). by apply elem_of_set_iter.
Qed.

Lemma onTrackedFeature_dom f tracked w :
  dom (store f (listener (final (onTrackedFeature init_hook f tracked w))))
  = (dom (store f (listener w)) ∩ list_to_set tracked)
    ∪ list_to_set (hydrated_prefix init_hook f (set_iter (to_add f tracked w))).
Proof.
  rewrite onTrackedFeature_run.
  destruct (add_loop_course f (set_iter (to_add f tracked w)) (after_removal f tracked w))
    as (_ & Hdom & _).
  cbn zeta in Hdom. rewrite Hdom. by rewrite dom_after_removal.
Qed.

Lemma onTrackedFeature_performed f tracked w :
  ∃ t, performed (onTrackedFeature init_hook f tracked) w
       = (EvErase f <$> set_iter (to_remove f tracked w)) ++ t
     ∧ erased_ids t = []
     ∧ inserted_ids t = hydrated_prefix init_hook f (set_iter (to_add f tracked w))
     ∧ notifications t = [].
Proof.
  destruct (add_loop_course f (set_iter (to_add f tracked w)) (after_removal f tracked w))
    as (_ & _ & t & Ht & He & Hi & Hn).
  cbn zeta in Ht. exists t. split; [|done].
  apply performed_app. rewrite onTrackedFeature_run, Ht.
  rewrite trace_after_removal. by rewrite app_assoc.
Qed.

Lemma onTrackedFeature_grows f tracked w :
  grows f (after_removal f tracked w) (final (onTrackedFeature init_hook f tracked w)).
Proof. rewrite onTrackedFeature_run. apply add_loop_grows. Qed.

Lemma onTrackedFeature_never_notifies f tracked w :
  notifications (performed (onTrackedFeature init_hook f tracked) w) = [].
Proof.
  destruct (onTrackedFeature_performed f tracked w) as (t & -> & _ & _ & Hn).
  by rewrite notifications_app, notifications_erase, Hn.
Qed.

Lemma list_to_set_set_iter (s : gset ID) : list_to_set (set_iter s) = s.
Proof. apply set_eq. intros x. rewrite elem_of_list_to_set. apply elem_of_set_iter. Qed.

Lemma onTrackedFeature_completed_dom f tracked w :
  completes (onTrackedFeature init_hook f tracked w) →
  dom (store f (listener (final (onTrackedFeature init_hook f tracked w))))
  = list_to_set tracked.
Proof.
  intros Hc. rewrite onTrackedFeature_dom.
  pose proof (proj1 (onTrackedFeature_completes_iff f tracked w) Hc) as Hall.
  rewrite hydrated_prefix_all.
  - rewrite list_to_set_set_iter, to_add_spec. apply set_eq. intros x.
    destruct (decide (x ∈ dom (store f (listener w)))); set_solver.
  - apply first_fault_None. intros id Hin. apply Hall. by apply elem_of_set_iter.
Qed.

(** ** The claims *)

(** C1 (key set after reconciliation). For every category and every
    received list of ids, the empty list included: the handler
    completes exactly when [init()] faults for none of the ids to add,
    and once it has completed the keys of the category's map are
    exactly the ids of the list. *)
Theorem onTrackedFeature_key_set f tracked w :
  let out := onTrackedFeature init_hook f tracked w in
  (completes out ↔ ∀ id, id ∈ to_add f tracked w → is_Some (init_hook f id)) ∧
  (completes out → dom (store f (listener (final out))) = list_to_set tracked).
Proof.
  cbn zeta. split.
  - apply onTrackedFeature_completes_iff.
  - apply onTrackedFeature_completed_dom.
Qed.

(** C3 (identity preservation). An id that is a key of the category's
    map before the call and is in the received list keeps its entry:
    after the call, however it ends, the map sends the id to the same
    pointer, the object behind it is as it was, and the handler has
    neither erased nor inserted that id, nor constructed or hydrated
    that object. *)
Theorem onTrackedFeature_preserves_identity f tracked w x p o :
  store f (listener w) !! x = Some p →
  x ∈ tracked →
  heap w !! sp_get p = Some o →
  let w' := final (onTrackedFeature init_hook f tracked w) in
  let t := performed (onTrackedFeature init_hook f tracked) w in
  store f (listener w') !! x = Some p
  ∧ heap w' !! sp_get p = Some o
  ∧ (x ∉ erased_ids t)
  ∧ (x ∉ inserted_ids t)
  ∧ (EvInit p ∉ t)
  ∧ (∀ f' id, EvMakeShared f' id p ∉ t).
Proof.
  intros Hx Hin Ho. cbn zeta.
  pose proof (onTrackedFeature_grows f tracked w) as [_ _ Hheap Hkept _ (ta & Hta & Fta)].
  assert (Hperf : performed (onTrackedFeature init_hook f tracked) w
                  = (EvErase f <$> set_iter (to_remove f tracked w)) ++ ta).
  { apply performed_app. rewrite Hta, trace_after_removal.
    by rewrite app_assoc. }
  assert (Hfresh : ∀ e, e ∈ ta → addition_event (after_removal f tracked w) e).
  { by apply Forall_forall. }
  assert (Hx_keep : x ∉ to_remove f tracked w).
  { rewrite to_remove_spec. set_solver. }
  assert (Hx_add : x ∉ to_add f tracked w).
  { rewrite to_add_spec. apply (elem_of_dom_2 (D := gset ID)) in Hx. set_solver. }
  destruct (onTrackedFeature_performed f tracked w) as (t' & Ht' & He' & Hi' & _).
  rewrite Hperf in Ht'. apply app_inv_head in Ht'. subst t'.
  assert (Hx' : store f (listener (after_removal f tracked w)) !! x = Some p).
  { rewrite lookup_after_removal. by rewrite decide_True. }
  assert (Ho' : heap (after_removal f tracked w) !! sp_get p = Some o).
  { by rewrite (after_removal_heap_held f f tracked w x p Hx'). }
  repeat split.
  - by apply Hkept.
  - by apply Hheap.
  - rewrite Hperf, erased_ids_app, erased_ids_erase, He', app_nil_r.
    by rewrite elem_of_set_iter.
  - rewrite Hperf, inserted_ids_app, inserted_ids_erase, Hi'. cbn.
    intros [Hin' _]%hydrated_prefix_elem_of. by apply elem_of_set_iter in Hin'.
  - rewrite Hperf. intros [Hbad|Hbad]%elem_of_app.
    + apply list_elem_of_fmap in Hbad as (? & ? & ?). done.
    + apply Hfresh in Hbad. cbn in Hbad. congruence.
  - intros f' id. rewrite Hperf. intros [Hbad|Hbad]%elem_of_app.
    + apply list_elem_of_fmap in Hbad as (? & ? & ?). done.
    + apply Hfresh in Hbad. cbn in Hbad. congruence.
Qed.

(** C4 (idempotence). When a call has completed, a second call with
    the same list computes an empty [to_add] and an empty [to_remove],
    performs no operation at all, hence no notification, and returns
    with the world exactly as the first call left it. *)
Theorem onTrackedFeature_idempotent f tracked w w1 :
  onTrackedFeature init_hook f tracked w = Returned tt w1 →
  to_add f tracked w1 = ∅
  ∧ to_remove f tracked w1 = ∅
  ∧ performed (onTrackedFeature init_hook f tracked) w1 = []
  ∧ notifications (performed (onTrackedFeature init_hook f tracked) w1) = []
  ∧ onTrackedFeature init_hook f tracked w1 = Returned tt w1.
Proof.
  intros Hrun.
  assert (Hdom : dom (store f (listener w1)) = list_to_set tracked).
  { pose proof (onTrackedFeature_completed_dom f tracked w) as Hd.
    rewrite Hrun in Hd. by apply Hd. }
  assert (Hadd : to_add f tracked w1 = ∅) by (rewrite to_add_spec, Hdom; set_solver).
  assert (Hrem : to_remove f tracked w1 = ∅) by (rewrite to_remove_spec, Hdom; set_solver).
  assert (Hsame : onTrackedFeature init_hook f tracked w1 = Returned tt w1).
  { rewrite onTrackedFeature_run, Hadd, set_iter_empty. cbn. unfold ret, after_removal.
    by rewrite Hrem, set_iter_empty. }
  assert (Hperf : performed (onTrackedFeature init_hook f tracked) w1 = []).
  { unfold performed. rewrite Hsame. cbn. by rewrite drop_all. }
  repeat split; try done. by rewrite Hperf.
Qed.

Lemma erased_ids_nil_not_erase t e : erased_ids t = [] → e ∈ t → is_erase e = false.
Proof.
  induction t as [|e' t IH]; [by intros _ ?%elem_of_nil|].
  unfold erased_ids. cbn.
  destruct e' as [f' id| | | |]; cbn; [done|..];
    intros Hnil [->|Hin]%elem_of_cons; auto.
Qed.

(** C5 (removals before additions, disjoint sets). The handler first
    runs the erasures of [to_remove]: they return in a world whose map
    has lost exactly the ids of [to_remove] and kept every other entry,
    and no insertion has been performed by then. The additions of
    [to_add] run from that world: they perform no erasure and remove no
    entry, so the ids of [to_remove] are no keys at the end. In the
    operations of the call, the handler erases exactly the ids of
    [to_remove]; it inserts the ids of [to_add], in order, up to the
    first whose [init()] faults; every erasure comes before every
    insertion; and no id is in both [to_add] and [to_remove]. *)
Theorem onTrackedFeature_removes_then_adds f tracked w :
  let t := performed (onTrackedFeature init_hook f tracked) w in
  erased_ids t = set_iter (to_remove f tracked w)
  ∧ inserted_ids t = hydrated_prefix init_hook f (set_iter (to_add f tracked w))
  ∧ (∀ i j ei ej, t !! i = Some ei → t !! j = Some ej →
       is_erase ei = true → is_insert ej = true → i < j)
  ∧ to_add f tracked w ∩ to_remove f tracked w = ∅
  ∧ ∃ w_mid,
      for_each (set_iter (to_remove f tracked w)) (λ id, erase f id) w = Returned tt w_mid
      ∧ performed (for_each (set_iter (to_remove f tracked w)) (λ id, erase f id)) w
        = (EvErase f <$> set_iter (to_remove f tracked w))
      ∧ (∀ k, store f (listener w_mid) !! k
              = if decide (k ∈ to_remove f tracked w) then None
                else store f (listener w) !! k)
      ∧ onTrackedFeature init_hook f tracked w
        = for_each (set_iter (to_add f tracked w)) (λ id, add_entity init_hook f id) w_mid
      ∧ erased_ids (performed (for_each (set_iter (to_add f tracked w))
                                 (λ id, add_entity init_hook f id)) w_mid) = []
      ∧ (∀ k p, store f (listener w_mid) !! k = Some p →
           store f (listener (final (onTrackedFeature init_hook f tracked w))) !! k = Some p)
      ∧ (∀ k, k ∈ to_remove f tracked w →
           store f (listener (final (onTrackedFeature init_hook f tracked w))) !! k = None).
Proof.
  cbn zeta.
  destruct (onTrackedFeature_performed f tracked w) as (ta & Hperf & He & Hi & _).
  rewrite Hperf.
  split; [by rewrite erased_ids_app, erased_ids_erase, He, app_nil_r|].
  split; [by rewrite inserted_ids_app, inserted_ids_erase, Hi|].
  split.
  { intros i j ei ej Hi' Hj' Herase Hinsert.
    set (E := EvErase (Callback := Callback) f <$> set_iter (to_remove f tracked w)) in *.
    assert (i < length E).
    { destruct (decide (i < length E)) as [|Hge]; [done|].
      rewrite lookup_app_r in Hi' by lia.
      apply list_elem_of_lookup_2 in Hi'.
      apply (erased_ids_nil_not_erase _ _ He) in Hi'. congruence. }
    assert (length E ≤ j).
    { destruct (decide (length E ≤ j)) as [|Hlt]; [done|].
      rewrite lookup_app_l in Hj' by lia.
      apply list_elem_of_lookup_2, list_elem_of_fmap in Hj' as (id & -> & _).
      done. }
    lia. }
  split; [rewrite to_add_spec, to_remove_spec; set_solver|].
  exists (after_removal f tracked w).
  split; [apply removal_run|].
  split; [apply performed_app; rewrite removal_run; apply trace_after_removal|].
  split.
  { intros k. rewrite listener_after_removal, store_set_store, lookup_erase_all.
    repeat case_decide; try done; rewrite elem_of_set_iter in *; done. }
  split; [apply onTrackedFeature_run|].
  split.
  { destruct (add_loop_course f (set_iter (to_add f tracked w)) (after_removal f tracked w))
      as (_ & _ & t & Ht & He' & _).
    cbn zeta in Ht. by rewrite (performed_app _ _ _ Ht). }
  split.
  { apply (grows_kept _ _ _ (onTrackedFeature_grows f tracked w)). }
  intros k Hk. apply (not_elem_of_dom (D := gset ID)). rewrite onTrackedFeature_dom.
  rewrite to_remove_spec in Hk.
  intros [[_ Hin]%elem_of_intersection|Hp%elem_of_list_to_set]%elem_of_union.
  - set_solver.
  - apply hydrated_prefix_elem_of in Hp as [Hp _]. apply elem_of_set_iter in Hp.
    rewrite to_add_spec in Hp. set_solver.
Qed.

(** C6 (a faulting [init()] leaves the id absent). When the handler is
    left by an exception, the exception is the fault of [init()] on an
    id of [to_add]; that id is not a key of the category's map; and
    every entry of the map is either an entry from before the call or
    points to an object of that id on which [init()] has completed:
    no object left half-way by [init()] is reachable from the map. *)
Theorem init_fault_leaves_id_absent f tracked w e w' :
  onTrackedFeature init_hook f tracked w = Thrown e w' →
  ∃ id, e = InitFault f id
        ∧ id ∈ to_add f tracked w
        ∧ init_hook f id = None
        ∧ store f (listener w') !! id = None
        ∧ ∀ k p, store f (listener w') !! k = Some p →
            store f (listener w) !! k = Some p
            ∨ ∃ d, heap w' !! sp_get p = Some (mkTracker k f (Initialised d)).
Proof.
  intros Hrun.
  pose proof (onTrackedFeature_outcome f tracked w) as Hout. cbn zeta in Hout.
  pose proof (onTrackedFeature_dom f tracked w) as Hdom.
  pose proof (onTrackedFeature_grows f tracked w) as [_ _ _ _ Hnew _].
  rewrite Hrun in Hout, Hdom, Hnew. cbn [final] in *.
  destruct (first_fault init_hook f (set_iter (to_add f tracked w))) as [id|] eqn:E;
    [|done].
  injection Hout as ->.
  apply first_fault_Some in E as (Hin & Hnone & Hnot). apply elem_of_set_iter in Hin.
  exists id. repeat split; try done.
  - apply (not_elem_of_dom (D := gset ID)). rewrite Hdom.
    rewrite to_add_spec in Hin.
    intros [[Hd _]%elem_of_intersection|Hp%elem_of_list_to_set]%elem_of_union;
      [set_solver|done].
  - intros k p Hk. destruct (Hnew k p Hk) as [Hold|[_ Hd]]; [|by right].
    left. rewrite lookup_after_removal in Hold. by case_decide.
Qed.

(** C7 (getters). [getFaces], [getBodies] and [getVoices] build, from
    an empty map, a map with the keys of the listener's map whose value
    at each key is the weak pointer to the object the listener's shared
    pointer owns; [getPersons] gives the persons map itself, with its
    shared pointers. *)
Theorem getters_snapshot l :
  (getFaces l = weak_of <$> faces l ∧ dom (getFaces l) = dom (faces l))
  ∧ (getBodies l = weak_of <$> bodies l ∧ dom (getBodies l) = dom (bodies l))
  ∧ (getVoices l = weak_of <$> voices l ∧ dom (getVoices l) = dom (voices l))
  ∧ (getPersons l = persons l ∧ dom (getPersons l) = dom (persons l))
  ∧ (∀ (m : gmap ID shared_ptr) id wp,
       weak_copy m !! id = Some wp →
       ∃ sp, m !! id = Some sp ∧ wp_target wp = sp_get sp).
Proof.
  unfold getFaces, getBodies, getVoices, getPersons.
  rewrite !weak_copy_spec, !dom_fmap_L. repeat split.
  intros m id wp. rewrite weak_copy_lookup.
  destruct (m !! id) as [sp|]; [|done]. intros [= <-]. by exists sp.
Qed.

Lemma onTrackedFeature_new_ids f tracked1 tracked2 :
  new_ids_of tracked1 = new_ids_of tracked2 →
  onTrackedFeature (Callback := Callback) init_hook f tracked1
  = onTrackedFeature init_hook f tracked2.
Proof. intros E. unfold onTrackedFeature. by rewrite E. Qed.

(** C8, amended (set semantics; the only failure is a fault of
    [init()]). Two lists with the same elements, whatever their order
    and repetitions, give the same [to_add], the same [to_remove] and
    the same outcome, hence the same keys. The form of the list never
    makes the handler fail, but the handler can fail: it is left by an
    exception exactly when [init()] faults on an id to add. *)
Theorem onTrackedFeature_set_semantics f tracked1 tracked2 w :
  (∀ id, id ∈ tracked1 ↔ id ∈ tracked2) →
  to_add f tracked1 w = to_add f tracked2 w
  ∧ to_remove f tracked1 w = to_remove f tracked2 w
  ∧ onTrackedFeature init_hook f tracked1 w = onTrackedFeature init_hook f tracked2 w
  ∧ (completes (onTrackedFeature init_hook f tracked1 w)
     ↔ ∀ id, id ∈ to_add f tracked1 w → is_Some (init_hook f id)).
Proof.
  intros Hsame.
  assert (E : new_ids_of tracked1 = new_ids_of tracked2).
  { rewrite !new_ids_of_spec. apply set_eq. intros x.
    rewrite !elem_of_list_to_set. apply Hsame. }
  repeat split.
  - unfold to_add. by rewrite E.
  - unfold to_remove. by rewrite E.
  - by rewrite (onTrackedFeature_new_ids f tracked1 tracked2 E).
  - apply onTrackedFeature_completes_iff.
  - apply onTrackedFeature_completes_iff.
Qed.

Lemma onTrackedFeature_frame f f' tracked w :
  let w' := final (onTrackedFeature init_hook f tracked w) in
  (f' ≠ f → store f' (listener w') = store f' (listener w))
  ∧ callbacks f' (listener w') = callbacks f' (listener w).
Proof.
  cbn zeta. pose proof (onTrackedFeature_grows f tracked w) as [Ho Hc _ _ _ _]. split.
  - intros Hf. by rewrite Ho, after_removal_others.
  - by rewrite Hc, after_removal_callbacks.
Qed.

(** C9 (frame). However the call for a category ends, the maps of the
    three other categories and the four callback lists are as before. *)
Theorem onTrackedFeature_touches_one_map f tracked w :
  let l := listener w in
  let l' := listener (final (onTrackedFeature init_hook f tracked w)) in
  (f ≠ face → faces l' = faces l)
  ∧ (f ≠ body → bodies l' = bodies l)
  ∧ (f ≠ voice → voices l' = voices l)
  ∧ (f ≠ person → persons l' = persons l)
  ∧ face_callbacks l' = face_callbacks l
  ∧ body_callbacks l' = body_callbacks l
  ∧ voice_callbacks l' = voice_callbacks l
  ∧ person_callbacks l' = person_callbacks l.
Proof.
  cbn zeta.
  pose proof (λ f', proj1 (onTrackedFeature_frame f f' tracked w)) as Hs.
  pose proof (λ f', proj2 (onTrackedFeature_frame f f' tracked w)) as Hc.
  cbn zeta in Hs, Hc.
  repeat split.
  - intros Hf. apply (Hs face). congruence.
  - intros Hf. apply (Hs body). congruence.
  - intros Hf. apply (Hs voice). congruence.
  - intros Hf. apply (Hs person). congruence.
  - apply (Hc face).
  - apply (Hc body).
  - apply (Hc voice).
  - apply (Hc person).
Qed.

(** C10 (determinism in the keys). Two worlds whose maps for the
    category have the same keys, given lists with the same elements,
    compute the same [to_add] and the same [to_remove], end the same
    way, and end with the same keys: neither the objects behind the
    existing entries nor the order of the list matter. *)
Theorem onTrackedFeature_deterministic f tracked1 tracked2 w1 w2 :
  dom (store f (listener w1)) = dom (store f (listener w2)) →
  (∀ id, id ∈ tracked1 ↔ id ∈ tracked2) →
  let out1 := onTrackedFeature init_hook f tracked1 w1 in
  let out2 := onTrackedFeature init_hook f tracked2 w2 in
  to_add f tracked1 w1 = to_add f tracked2 w2
  ∧ to_remove f tracked1 w1 = to_remove f tracked2 w2
  ∧ dom (store f (listener (final out1))) = dom (store f (listener (final out2)))
  ∧ (completes out1 ↔ completes out2)
  ∧ (∀ e, (∃ w', out1 = Thrown e w') ↔ (∃ w', out2 = Thrown e w')).
Proof.
  intros Hdom Hsame. cbn zeta.
  assert (E : list_to_set (C := gset ID) tracked1 = list_to_set tracked2).
  { apply set_eq. intros x. rewrite !elem_of_list_to_set. apply Hsame. }
  assert (Hadd : to_add f tracked1 w1 = to_add f tracked2 w2).
  { by rewrite !to_add_spec, Hdom, E. }
  assert (Hrem : to_remove f tracked1 w1 = to_remove f tracked2 w2).
  { by rewrite !to_remove_spec, Hdom, E. }
  pose proof (onTrackedFeature_outcome f tracked1 w1) as Ho1.
  pose proof (onTrackedFeature_outcome f tracked2 w2) as Ho2.
  cbn zeta in Ho1, Ho2. rewrite Hadd in Ho1.
  repeat split; try done.
  - by rewrite !onTrackedFeature_dom, Hdom, E, Hadd.
  - rewrite Ho1, Ho2. by destruct (first_fault _ _ _).
  - rewrite Ho1, Ho2. by destruct (first_fault _ _ _).
  - intros [w' Hw']. rewrite Ho1 in Hw'. rewrite Ho2.
    destruct (first_fault _ _ _); [|done]. injection Hw' as <- _. eauto.
  - intros [w' Hw']. rewrite Ho2 in Hw'. rewrite Ho1.
    destruct (first_fault _ _ _); [|done]. injection Hw' as <- _. eauto.
Qed.

End Handler.

(** * The listener in use *)

Section Coverage.
Context {Detail Callback : Type}.
Variable init_hook : FeatureType → ID → option Detail.

Implicit Types (w : World Detail Callback) (l : HRIListener Callback).
Implicit Types (f feature : FeatureType) (tracked ids : list string).
Implicit Types (t : list (Event Callback)).

(** ** Registration *)

Lemma store_register f f' (cb : Callback) l : store f (register f' cb l) = store f l.
Proof. by destruct f, f'. Qed.

Lemma callbacks_register f f' (cb : Callback) l :
  callbacks f (register f' cb l)
  = if decide (f' = f) then callbacks f l ++ [cb] else callbacks f l.
Proof. by destruct f, f'. Qed.

Lemma set_store_register f f' (cb : Callback) m l :
  set_store f m (register f' cb l) = register f' cb (set_store f m l).
Proof. by destruct f, f'. Qed.

(** ** Entries and the objects behind them *)

Lemma onTrackedFeature_consistent f tracked w :
  consistent w → consistent (final (onTrackedFeature init_hook f tracked w)).
Proof.
  intros Hw f' id p Hp.
  pose proof (onTrackedFeature_grows init_hook f tracked w) as [Ho _ Hheap _ Hnew _].
  destruct (decide (f' = f)) as [->|Hne].
  - destruct (Hnew id p Hp) as [Hold|[_ Hd]]; [|done].
    pose proof (after_removal_heap_held f f tracked w id p Hold) as Hsame.
    rewrite (lookup_after_removal init_hook) in Hold. case_decide; [|done].
    destruct (Hw f id p Hold) as [d Hd]. exists d. apply Hheap. by rewrite Hsame.
  - rewrite Ho in Hp by done.
    pose proof (after_removal_heap_held f f' tracked w id p Hp) as Hsame.
    rewrite after_removal_others in Hp by done.
    destruct (Hw f' id p Hp) as [d Hd]. exists d. apply Hheap. by rewrite Hsame.
Qed.

Lemma reachable_consistent w : reachable init_hook w → consistent w.
Proof.
  induction 1 as [|f cb w _ IH|f tracked w _ IH].
  - intros f id p Hp. by destruct f.
  - intros f' id p Hp. cbn in Hp. rewrite store_register in Hp. by apply IH.
  - by apply onTrackedFeature_consistent.
Qed.

(** An entry the call has no reason to erase is kept, with its object. *)
Lemma onTrackedFeature_keeps f f' tracked w x p o :
  store f' (listener w) !! x = Some p →
  heap w !! sp_get p = Some o →
  (f' = f → x ∈ tracked) →
  store f' (listener (final (onTrackedFeature init_hook f tracked w))) !! x = Some p
  ∧ heap (final (onTrackedFeature init_hook f tracked w)) !! sp_get p = Some o.
Proof.
  intros Hx Ho Hin.
  pose proof (onTrackedFeature_grows init_hook f tracked w) as [Hoth _ Hheap Hkept _ _].
  assert (Hx' : store f' (listener (after_removal f tracked w)) !! x = Some p).
  { destruct (decide (f' = f)) as [->|Hne].
    - rewrite (lookup_after_removal init_hook). by rewrite decide_True by auto.
    - by rewrite after_removal_others. }
  split.
  - destruct (decide (f' = f)) as [->|Hne]; [by apply Hkept|by rewrite Hoth].
  - apply Hheap. by rewrite (after_removal_heap_held f f' tracked w x p Hx').
Qed.

(** X1 (what the getters hand out). In every world the listener can be
    in, each weak pointer that [getFaces], [getBodies] or [getVoices]
    returns under an id, and each shared pointer [getPersons] returns
    under an id, refers to an object of that id and of the getter's
    category on which [init()] has completed. *)
Theorem getters_give_hydrated_entities w :
  reachable init_hook w →
  (∀ id wp, getFaces (listener w) !! id = Some wp →
     ∃ d, heap w !! wp_target wp = Some (mkTracker id face (Initialised d)))
  ∧ (∀ id wp, getBodies (listener w) !! id = Some wp →
     ∃ d, heap w !! wp_target wp = Some (mkTracker id body (Initialised d)))
  ∧ (∀ id wp, getVoices (listener w) !! id = Some wp →
     ∃ d, heap w !! wp_target wp = Some (mkTracker id voice (Initialised d)))
  ∧ (∀ id sp, getPersons (listener w) !! id = Some sp →
     ∃ d, heap w !! sp_get sp = Some (mkTracker id person (Initialised d))).
Proof.
  intros Hr. pose proof (reachable_consistent w Hr) as Hc.
  assert (Hweak : ∀ f id wp, weak_copy (store f (listener w)) !! id = Some wp →
            ∃ d, heap w !! wp_target wp = Some (mkTracker id f (Initialised d))).
  { intros f id wp. rewrite weak_copy_lookup.
    destruct (store f (listener w) !! id) as [sp|] eqn:E; [|done].
    intros [= <-]. apply (Hc f id sp E). }
  repeat split.
  - apply (Hweak face).
  - apply (Hweak body).
  - apply (Hweak voice).
  - intros id sp. apply (Hc person).
Qed.

(** X2 (no object is shared). In every world the listener can be in,
    two entries that hold the same pointer are one entry: same category,
    same id. *)
Theorem entries_do_not_alias w f1 f2 id1 id2 p :
  reachable init_hook w →
  store f1 (listener w) !! id1 = Some p →
  store f2 (listener w) !! id2 = Some p →
  f1 = f2 ∧ id1 = id2.
Proof.
  intros Hr H1 H2. pose proof (reachable_consistent w Hr) as Hc.
  destruct (Hc f1 id1 p H1) as [d1 E1]. destruct (Hc f2 id2 p H2) as [d2 E2].
  rewrite E1 in E2. by injection E2 as -> ->.
Qed.
(** ** The course of one call *)

Lemma first_fault_split f ids id :
  first_fault init_hook f ids = Some id →
  ∃ rest, ids = hydrated_prefix init_hook f ids ++ id :: rest.
Proof.
  induction ids as [|x ids IH]; cbn; [done|].
  destruct (init_hook f x) as [d|].
  - intros Hf. destruct (IH Hf) as [rest Hrest]. exists rest. cbn. by rewrite <- Hrest.
  - intros [= ->]. by exists ids.
Qed.

Lemma add_loop_completed f ids w :
  NoDup ids →
  (∀ id, id ∈ ids → store f (listener w) !! id = None) →
  first_fault init_hook f ids = None →
  let w' := final (for_each ids (λ id, add_entity init_hook f id) w) in
  ∃ ps, length ps = length ids
      ∧ trace w' = trace w ++ concat (zip_with (addition_of f) ids ps)
      ∧ NoDup ps
      ∧ (∀ p, p ∈ ps → heap w !! sp_get p = None)
      ∧ (∀ i id p, ids !! i = Some id → ps !! i = Some p →
           store f (listener w') !! id = Some p).
Proof.
  revert w. induction ids as [|id ids IH]; intros w Hnd Hnew Hfault; cbn zeta.
  - exists []. cbn. rewrite app_nil_r. repeat split; try done.
    + constructor.
    + by intros p ?%elem_of_nil.
  - apply NoDup_cons in Hnd as [Hid Hnd]. cbn [for_each first_fault] in *.
    unfold bind. rewrite add_entity_run. cbn zeta.
    pose proof (fresh_heap_None w) as Hfresh.
    set (a := fresh (dom (heap w))) in *.
    destruct (init_hook f id) as [d|]; [|done].
    rewrite (Hnew id) by (by left).
    erewrite (released_held f id);
      [|cbn [listener]; by rewrite store_set_store, lookup_insert_eq].
    match goal with |- context [for_each ids _ ?w0] => set (w1 := w0) end.
    destruct (IH w1 Hnd) as (ps & Hlen & Htr & Hnd' & Hfr & Hlk); [|done|].
    { intros id' Hin. cbn. rewrite store_set_store, lookup_insert_ne.
      - apply Hnew. by right.
      - intros ->. done. }
    cbn zeta in *. exists (Shared a :: ps). repeat split.
    + cbn. by rewrite Hlen.
    + rewrite Htr. cbn [trace w1]. by rewrite <- app_assoc.
    + apply NoDup_cons. split; [|done]. intros Hin. apply Hfr in Hin.
      cbn in Hin. by rewrite lookup_insert_eq in Hin.
    + intros p [->|Hin]%elem_of_cons; [done|]. apply Hfr in Hin. cbn in Hin.
      destruct (decide (sp_get p = a)) as [E|E].
      * rewrite E, lookup_insert_eq in Hin. done.
      * by rewrite !lookup_insert_ne in Hin by done.
    + intros [|i] id' p; cbn.
      * intros [= <-] [= <-].
        apply (grows_kept _ _ _ (add_loop_grows init_hook f ids w1)).
        cbn. by rewrite store_set_store, lookup_insert_eq.
      * apply Hlk.
Qed.

(** X3 (the course of a completed call). A call that completes performs
    the erasures of [to_remove] in increasing order of id and then, for
    each id of [to_add] in increasing order, one construction, one
    [init()] and one insertion, on one object per id. Afterwards no id
    of [to_remove] is a key, every entry whose id is in the list is as
    it was, and each id of [to_add] holds the object constructed for it;
    these objects are pairwise distinct, and each is a new object: its
    address held no object before the call, or the object of an entry
    the call has erased. *)
Theorem completed_call_course f tracked w :
  completes (onTrackedFeature init_hook f tracked w) →
  ∃ ps : list shared_ptr,
    performed (onTrackedFeature init_hook f tracked) w
    = (EvErase f <$> set_iter (to_remove f tracked w))
      ++ concat (zip_with (addition_of f) (set_iter (to_add f tracked w)) ps)
    ∧ length ps = length (set_iter (to_add f tracked w))
    ∧ NoDup ps
    ∧ (∀ p, p ∈ ps →
         heap w !! sp_get p = None
         ∨ ∃ id, id ∈ to_remove f tracked w ∧ store f (listener w) !! id = Some p)
    ∧ (∀ i id p, set_iter (to_add f tracked w) !! i = Some id → ps !! i = Some p →
         store f (listener (final (onTrackedFeature init_hook f tracked w))) !! id = Some p)
    ∧ (∀ id, id ∈ to_remove f tracked w →
         store f (listener (final (onTrackedFeature init_hook f tracked w))) !! id = None)
    ∧ (∀ id p, id ∈ tracked → store f (listener w) !! id = Some p →
         store f (listener (final (onTrackedFeature init_hook f tracked w))) !! id = Some p)
    ∧ Sorted ID_le (set_iter (to_remove f tracked w))
    ∧ Sorted ID_le (set_iter (to_add f tracked w)).
Proof.
  intros Hc.
  pose proof (proj1 (onTrackedFeature_completes_iff init_hook f tracked w) Hc) as Hall.
  pose proof (onTrackedFeature_completed_dom init_hook f tracked w Hc) as Hdom.
  pose proof (onTrackedFeature_grows init_hook f tracked w) as [_ _ _ Hkept _ _].
  destruct (add_loop_completed f (set_iter (to_add f tracked w)) (after_removal f tracked w))
    as (ps & Hlen & Htr & Hnd & Hfr & Hlk).
  - apply NoDup_set_iter.
  - intros id Hin. apply elem_of_set_iter in Hin. rewrite to_add_spec in Hin.
    rewrite (lookup_after_removal init_hook). case_decide; [|done].
    apply (not_elem_of_dom (D := gset ID)). set_solver.
  - apply first_fault_None. intros id Hin. apply Hall. by apply elem_of_set_iter.
  - cbn zeta in *. rewrite <- onTrackedFeature_run in Htr, Hlk.
    exists ps. repeat split; try done.
    + apply performed_app. rewrite Htr, trace_after_removal.
      by rewrite app_assoc.
    + intros p Hp. apply Hfr in Hp.
      destruct (heap w !! sp_get p) as [o|] eqn:E; [right|by left].
      destruct (after_removal_heap_gone f tracked w _ o E Hp) as (id & Hin & Hid).
      exists id. split; [done|]. by destruct p.
    + intros id Hin. apply (not_elem_of_dom (D := gset ID)). rewrite Hdom.
      rewrite to_remove_spec in Hin. rewrite elem_of_list_to_set. set_solver.
    + intros id p Hin Hid. apply Hkept.
      rewrite (lookup_after_removal init_hook). by rewrite decide_True.
    + apply set_iter_sorted.
    + apply set_iter_sorted.
Qed.

(** X4 (a list that announces nothing new). When every id of the list
    is already a key of the category's map, the call returns whatever
    [init()] would do: it performs the erasures of [to_remove] and
    nothing else, and the map is the former map restricted to the ids of
    the list, each with the pointer it had. *)
Theorem nothing_new_only_erases f tracked w :
  (∀ id, id ∈ tracked → is_Some (store f (listener w) !! id)) →
  ∃ w', onTrackedFeature init_hook f tracked w = Returned tt w'
        ∧ performed (onTrackedFeature init_hook f tracked) w
          = (EvErase f <$> set_iter (to_remove f tracked w))
        ∧ ∀ k, store f (listener w') !! k
               = if decide (k ∈ tracked) then store f (listener w) !! k else None.
Proof.
  intros Hknown.
  assert (Hadd : to_add f tracked w = ∅).
  { rewrite to_add_spec. apply set_eq. intros x.
    rewrite elem_of_difference, elem_of_list_to_set, elem_of_dom. set_solver. }
  assert (Hrun : onTrackedFeature init_hook f tracked w
                 = Returned tt (after_removal f tracked w)).
  { by rewrite onTrackedFeature_run, Hadd, set_iter_empty. }
  exists (after_removal f tracked w). repeat split; [done| |].
  - apply performed_app. rewrite Hrun. apply trace_after_removal.
  - intros k. apply (lookup_after_removal init_hook).
Qed.

(** X5 (the empty list). On an empty list the call returns whatever
    [init()] would do; it erases every key of the category's map, in
    increasing order, performs nothing else, and leaves the map empty. *)
Theorem empty_list_clears f w :
  ∃ w', onTrackedFeature init_hook f [] w = Returned tt w'
        ∧ store f (listener w') = ∅
        ∧ performed (onTrackedFeature init_hook f []) w
          = (EvErase f <$> set_iter (dom (store f (listener w)))).
Proof.
  assert (Hadd : to_add f [] w = ∅) by (rewrite to_add_spec; set_solver).
  assert (Hrem : to_remove f [] w = dom (store f (listener w)))
    by (rewrite to_remove_spec; set_solver).
  assert (Hrun : onTrackedFeature init_hook f [] w = Returned tt (after_removal f [] w)).
  { by rewrite onTrackedFeature_run, Hadd, set_iter_empty. }
  exists (after_removal f [] w). repeat split; [done| |].
  - apply map_eq. intros k. rewrite (lookup_after_removal init_hook), lookup_empty.
    case_decide; [|done]. by apply elem_of_nil in H.
  - rewrite <- Hrem. apply performed_app. rewrite Hrun. apply trace_after_removal.
Qed.

(** X6 (a fault leaves the update half done). When [init()] faults on
    an id, the handler is left with every erasure already applied and
    with the ids of [to_add] that come before the faulting one already
    added; the faulting id and the ids after it are not keys. Nothing is
    rolled back. *)
Theorem fault_keeps_partial_update f tracked w e w' :
  onTrackedFeature init_hook f tracked w = Thrown e w' →
  ∃ id before after,
    e = InitFault f id
    ∧ set_iter (to_add f tracked w) = before ++ id :: after
    ∧ (∀ x, x ∈ before → is_Some (init_hook f x))
    ∧ init_hook f id = None
    ∧ erased_ids (performed (onTrackedFeature init_hook f tracked) w)
      = set_iter (to_remove f tracked w)
    ∧ dom (store f (listener w'))
      = (dom (store f (listener w)) ∩ list_to_set tracked) ∪ list_to_set before
    ∧ (∀ x, x = id ∨ x ∈ after → store f (listener w') !! x = None).
Proof.
  intros Hrun.
  pose proof (onTrackedFeature_outcome init_hook f tracked w) as Hout. cbn zeta in Hout.
  pose proof (onTrackedFeature_dom init_hook f tracked w) as Hdom.
  destruct (onTrackedFeature_performed init_hook f tracked w) as (t & Ht & He & _ & _).
  rewrite Hrun in Hout, Hdom. cbn [final] in *.
  destruct (first_fault init_hook f (set_iter (to_add f tracked w))) as [id|] eqn:E; [|done].
  injection Hout as ->.
  destruct (first_fault_split _ _ _ E) as [after Hsplit].
  apply first_fault_Some in E as (_ & Hnone & _).
  set (before := hydrated_prefix init_hook f (set_iter (to_add f tracked w))) in *.
  pose proof (NoDup_set_iter (to_add f tracked w)) as Hnd. rewrite Hsplit in Hnd.
  apply NoDup_app in Hnd as (_ & Hdisj & Hnd). apply NoDup_cons in Hnd as [Hid _].
  assert (Hin : ∀ x, x = id ∨ x ∈ after → x ∈ to_add f tracked w ∧ x ∉ before).
  { intros x Hx. split.
    - apply elem_of_set_iter. rewrite Hsplit, elem_of_app, elem_of_cons. naive_solver.
    - intros Hb. apply (Hdisj x Hb). apply elem_of_cons. naive_solver. }
  exists id, before, after. repeat split; try done.
  - intros x Hx. by apply hydrated_prefix_elem_of in Hx as [_ ?].
  - by rewrite Ht, erased_ids_app, erased_ids_erase, He, app_nil_r.
  - intros x Hx. destruct (Hin x Hx) as [Hadd Hnot].
    apply (not_elem_of_dom (D := gset ID)). rewrite Hdom.
    rewrite to_add_spec in Hadd.
    intros [[Hd _]%elem_of_intersection|Hp%elem_of_list_to_set]%elem_of_union;
      [set_solver|done].
Qed.
(** ** Several calls in a row *)

Lemma announce_all_cons a anns w :
  announce_all init_hook (a :: anns) w
  = match onTrackedFeature init_hook a.1 a.2 w with
    | Returned _ w1 => announce_all init_hook anns w1
    | Thrown e w1 => Thrown e w1
    end.
Proof. reflexivity. Qed.

(** X7 (the last list wins). After a run of calls that all complete,
    for each category the keys of its map are the ids of the last list
    received for that category, whatever was received before; a category
    that received no list has the keys it had. *)
Theorem last_announcement_decides_keys anns w f :
  completes (announce_all init_hook anns w) →
  dom (store f (listener (final (announce_all init_hook anns w))))
  = match last_announced f anns with
    | Some ids => list_to_set ids
    | None => dom (store f (listener w))
    end.
Proof.
  revert w. induction anns as [|[f' ids'] anns IH]; intros w Hc; [done|].
  rewrite announce_all_cons in *. cbn [fst snd] in *.
  pose proof (onTrackedFeature_completed_dom init_hook f' ids' w) as Hdom.
  pose proof (onTrackedFeature_frame init_hook f' f ids' w) as [Hframe _].
  cbn zeta in Hframe.
  destruct (onTrackedFeature init_hook f' ids' w) as [[] w1|e w1]; [|done].
  cbn [final] in *. rewrite (IH w1 Hc). cbn [last_announced fst snd].
  destruct (last_announced f anns); [done|].
  case_decide as Hf.
  - subst f'. by apply Hdom.
  - rewrite Hframe; [done|]. congruence.
Qed.

(** X11 (a tracked entity across calls). Through a run of calls, an
    entry whose id is in every list received for its category keeps its
    pointer, and the object behind it stays as it was, however the run
    ends and whatever the other categories receive. *)
Theorem entity_survives_announcements anns w f x p o :
  store f (listener w) !! x = Some p →
  heap w !! sp_get p = Some o →
  (∀ a, a ∈ anns → a.1 = f → x ∈ a.2) →
  store f (listener (final (announce_all init_hook anns w))) !! x = Some p
  ∧ heap (final (announce_all init_hook anns w)) !! sp_get p = Some o.
Proof.
  revert w. induction anns as [|[f' ids'] anns IH]; intros w Hx Ho Hall; [done|].
  rewrite announce_all_cons. cbn [fst snd].
  destruct (onTrackedFeature_keeps f' f ids' w x p o Hx Ho) as [Hx1 Ho1].
  { intros <-. apply (Hall (f, ids')); [by left|done]. }
  destruct (onTrackedFeature init_hook f' ids' w) as [[] w1|e w1]; cbn [final] in *.
  - apply IH; [done|done|]. intros a Hin. apply Hall. by right.
  - done.
Qed.

(** ** Registration and the handler *)

(** X8 (callbacks accumulate in order). After any run of registrations,
    the callback list of each category is its former list followed by
    the callbacks registered for that category, in the order of
    registration and with repetitions kept; the four maps are as before. *)
Theorem registrations_accumulate (regs : list (FeatureType * Callback)) l f :
  callbacks f (register_all regs l) = callbacks f l ++ registered_for f regs
  ∧ store f (register_all regs l) = store f l.
Proof.
  unfold register_all, registered_for.
  revert l. induction regs as [|[f' cb] regs IH]; intros l; cbn [foldl].
  - by rewrite app_nil_r.
  - destruct (IH (register f' cb l)) as [Hc Hs]. cbn [fst snd] in *.
    rewrite Hc, Hs, store_register, callbacks_register, filter_cons. cbn [fst].
    split; [|done]. case_decide; [|done]. cbn. by rewrite <- app_assoc.
Qed.

Lemma to_add_with_listener f f' (cb : Callback) tracked w :
  to_add f tracked (with_listener (register f' cb) w) = to_add f tracked w.
Proof. rewrite !to_add_spec. cbn. by rewrite store_register. Qed.

Lemma to_remove_with_listener f f' (cb : Callback) tracked w :
  to_remove f tracked (with_listener (register f' cb) w) = to_remove f tracked w.
Proof. rewrite !to_remove_spec. cbn. by rewrite store_register. Qed.

Lemma use_count_register f' (cb : Callback) l p :
  use_count (register f' cb l) p = use_count l p.
Proof. by destruct f'. Qed.

Lemma released_with_listener f' (cb : Callback) p w :
  released p (with_listener (register f' cb) w)
  = with_listener (register f' cb) (released p w).
Proof.
  unfold released. cbn [with_listener listener]. rewrite use_count_register.
  by case_decide.
Qed.

Lemma final_map_outcome {A} (g : World Detail Callback → World Detail Callback)
    (o : Outcome Detail Callback A) :
  final (map_outcome g o) = g (final o).
Proof. by destruct o. Qed.

Lemma erase_with_listener f f' (cb : Callback) id w :
  erase f id (with_listener (register f' cb) w)
  = map_outcome (with_listener (register f' cb)) (erase f id w).
Proof.
  unfold erase, bind, get_listener, put_listener, emit, release, ret.
  cbn [with_listener listener heap trace]. rewrite store_register.
  destruct (store f (listener w) !! id) as [p|]; cbn [map_outcome].
  - rewrite set_store_register.
    change (mkWorld (register f' cb (set_store f (delete id (store f (listener w)))
                                        (listener w))) (heap w) (trace w))
      with (with_listener (register f' cb)
              (mkWorld (set_store f (delete id (store f (listener w))) (listener w))
                       (heap w) (trace w))).
    by rewrite released_with_listener.
  - by rewrite set_store_register.
Qed.

Lemma erase_loop_with_listener f f' (cb : Callback) ids w :
  for_each ids (λ id, erase f id) (with_listener (register f' cb) w)
  = map_outcome (with_listener (register f' cb)) (for_each ids (λ id, erase f id) w).
Proof.
  revert w. induction ids as [|id ids IH]; intros w; [done|].
  rewrite !erase_loop_cons, erase_with_listener, final_map_outcome. apply IH.
Qed.

Lemma after_removal_with_listener f f' (cb : Callback) tracked w :
  after_removal f tracked (with_listener (register f' cb) w)
  = with_listener (register f' cb) (after_removal f tracked w).
Proof.
  unfold after_removal. rewrite to_remove_with_listener, erase_loop_with_listener.
  apply final_map_outcome.
Qed.

Lemma add_entity_with_listener f f' (cb : Callback) id w :
  add_entity init_hook f id (with_listener (register f' cb) w)
  = map_outcome (with_listener (register f' cb)) (add_entity init_hook f id w).
Proof.
  rewrite !add_entity_run. cbn zeta.
  cbn [with_listener heap listener trace]. rewrite store_register.
  destruct (init_hook f id) as [d|]; cbn [map_outcome].
  - rewrite set_store_register. f_equal.
    by rewrite <- released_with_listener.
  - f_equal. by rewrite <- released_with_listener.
Qed.

Lemma add_loop_with_listener f f' (cb : Callback) ids w :
  for_each ids (λ id, add_entity init_hook f id) (with_listener (register f' cb) w)
  = map_outcome (with_listener (register f' cb))
      (for_each ids (λ id, add_entity init_hook f id) w).
Proof.
  revert w. induction ids as [|id ids IH]; intros w; [done|].
  cbn [for_each]. unfold bind. rewrite add_entity_with_listener.
  destruct (add_entity init_hook f id w) as [[] w1|e w1]; cbn [map_outcome]; [|done].
  apply IH.
Qed.

(** X9 (registration and reconciliation commute). Registering a
    callback before a call of the handler, or right after it, gives the
    same outcome and the same world: what the handler does depends on no
    callback list, and it leaves them all as they are. *)
Theorem registration_commutes_with_handler f f' (cb : Callback) tracked w :
  onTrackedFeature init_hook f tracked (with_listener (register f' cb) w)
  = map_outcome (with_listener (register f' cb)) (onTrackedFeature init_hook f tracked w).
Proof.
  rewrite !onTrackedFeature_run, to_add_with_listener, after_removal_with_listener.
  apply add_loop_with_listener.
Qed.

(** ** Subscriptions *)

(** X10 (the subscriptions of [init()]). Whatever the table held,
    after [init()] each of the four categories has a subscription, of
    queue size 1, whose callback is the handler of that same category;
    no two categories listen on the same topic; and the callback of a
    category's subscription changes no map but that category's. *)
Theorem init_subscribes_each_category
    (feature_subscribers_ : gmap FeatureType Subscriber) f :
  ∃ s, HRIListener_init feature_subscribers_ !! f = Some s
       ∧ sub_feature s = f
       ∧ sub_queue_size s = 1
       ∧ (∀ f' s', HRIListener_init feature_subscribers_ !! f' = Some s' →
            sub_topic s' = sub_topic s → f' = f)
       ∧ (∀ tracked w f', f' ≠ f →
            store f' (listener (final (sub_callback init_hook s tracked w)))
            = store f' (listener w)).
Proof.
  assert (Hlk : ∀ g, HRIListener_init feature_subscribers_ !! g
                     = Some (subscribe
                               match g with
                               | face => "/humans/faces/tracked"
                               | body => "/humans/bodies/tracked"
                               | voice => "/humans/voices/tracked"
                               | person => "/humans/persons/tracked"
                               end 1 g)).
  { intros g. unfold HRIListener_init. cbn zeta.
    destruct g; repeat (rewrite lookup_insert_ne by done); by rewrite lookup_insert_eq. }
  eexists. split; [apply Hlk|]. repeat split.
  - intros f' s'. rewrite Hlk. intros [= <-]. cbn. by destruct f, f'.
  - intros tracked w f' Hne. unfold sub_callback. cbn [sub_feature subscribe].
    by apply (onTrackedFeature_frame init_hook f f' tracked w).
Qed.
(** ** The life of an object *)

Lemma use_count_holder l p :
  use_count l p ≠ 0 → ∃ f k, store f l !! k = Some p.
Proof.
  assert (G : ∀ m : gmap ID shared_ptr,
             size (filter (λ kv, kv.2 = p) m) ≠ 0 → ∃ k, m !! k = Some p).
  { intros m Hm. rewrite map_size_ne_0_lookup in Hm. destruct Hm as (k & x & Hk).
    apply map_lookup_filter_Some in Hk as [Hk Hx]. cbn in Hx. subst x. by exists k. }
  unfold use_count. intros H.
  destruct (decide (size (filter (λ kv, kv.2 = p) (faces l)) = 0)) as [E1|E1];
    [|destruct (G _ E1) as [k Hk]; by exists face, k].
  destruct (decide (size (filter (λ kv, kv.2 = p) (bodies l)) = 0)) as [E2|E2];
    [|destruct (G _ E2) as [k Hk]; by exists body, k].
  destruct (decide (size (filter (λ kv, kv.2 = p) (voices l)) = 0)) as [E3|E3];
    [|destruct (G _ E3) as [k Hk]; by exists voice, k].
  destruct (decide (size (filter (λ kv, kv.2 = p) (persons l)) = 0)) as [E4|E4];
    [|destruct (G _ E4) as [k Hk]; by exists person, k].
  rewrite E1, E2, E3, E4 in H. done.
Qed.

(** After a pointer to [p] has gone, [p]'s object is there only if an
    entry holds it. *)
Lemma released_holder p w o :
  heap (released p w) !! sp_get p = Some o →
  ∃ f k, store f (listener w) !! k = Some p.
Proof.
  unfold released. case_decide as Hc.
  - cbn. by rewrite lookup_delete_eq.
  - intros _. by apply use_count_holder.
Qed.

Lemma erase_no_leak f id w : no_leak w → no_leak (final (erase f id w)).
Proof.
  intros Hw a o Ha. rewrite erase_listener.
  pose proof (erase_heap_Some _ _ _ _ _ Ha) as Ha0.
  destruct (Hw a o Ha0) as (f' & k & Hk).
  destruct (decide (f' = f ∧ k = id)) as [[-> ->]|Hne].
  - revert Ha. unfold erase, bind, get_listener, put_listener, emit, release, ret. cbn.
    rewrite Hk. cbn. intros Ha.
    destruct (released_holder (Shared a) _ o Ha) as (f2 & k2 & H2). by exists f2, k2.
  - exists f', k. destruct (decide (f' = f)) as [->|Hf].
    + rewrite store_set_store, lookup_delete_ne; [done|]. intros ->. by apply Hne.
    + by rewrite store_set_store_ne.
Qed.

Lemma add_entity_no_leak f id w :
  no_leak w → no_leak (final (add_entity init_hook f id w)).
Proof.
  intros Hw b o. rewrite add_entity_run. cbn zeta.
  pose proof (fresh_heap_None w) as Hfresh.
  set (a := fresh (dom (heap w))) in *.
  assert (Hold : ∀ m (l' : HRIListener Callback) t o',
             (∀ f' k p, store f' (listener w) !! k = Some p → store f' l' !! k = Some p) →
             (∀ c, c ≠ a → m !! c = heap w !! c) →
             heap (released (Shared a) (mkWorld l' m t)) !! b = Some o' →
             ∃ f' k, store f' l' !! k = Some (Shared b)).
  { intros m l' t o' Hkeep Hm Hb. destruct (decide (b = a)) as [->|Hne].
    - apply (released_holder (Shared a)) in Hb. exact Hb.
    - rewrite released_heap_ne in Hb by done. cbn in Hb. rewrite Hm in Hb by done.
      destruct (Hw b o' Hb) as (f' & k & Hk). exists f', k. by apply Hkeep. }
  destruct (init_hook f id) as [d|]; cbn [final]; rewrite released_listener; cbn [listener].
  - apply Hold.
    + intros f' k p Hk. destruct (decide (f' = f)) as [->|Hf].
      * rewrite store_set_store. destruct (store f (listener w) !! id) eqn:E; [done|].
        rewrite lookup_insert_ne; [done|]. congruence.
      * by rewrite store_set_store_ne.
    + intros c Hc. by rewrite !lookup_insert_ne.
  - apply Hold; [done|]. intros c Hc. by rewrite lookup_insert_ne.
Qed.

Lemma for_each_preserves {A} (P : World Detail Callback → Prop)
    (body : A → M Detail Callback unit) (xs : list A) :
  (∀ x w, P w → P (final (body x w))) → ∀ w, P w → P (final (for_each xs body w)).
Proof.
  intros Hbody. induction xs as [|x xs IH]; intros w Hw; [done|].
  cbn [for_each]. unfold bind. specialize (Hbody x w Hw).
  destruct (body x w) as [[] w1|e w1]; cbn in *; [by apply IH|done].
Qed.

(** X13 (no tracker outlives its entry). In every world the listener
    can be in, each tracker of the heap is held by an entry of one of
    the four maps: an erased entry takes its tracker with it, and a
    tracker whose [init()] threw is gone with the exception. *)
Theorem trackers_are_held_by_entries w a o :
  reachable init_hook w →
  heap w !! a = Some o →
  ∃ f id, store f (listener w) !! id = Some (Shared a).
Proof.
  intros Hr. revert a o. change (no_leak w).
  induction Hr as [|f cb w _ IH|f tracked w _ IH].
  - intros a o Ha. cbn in Ha. by rewrite lookup_empty in Ha.
  - intros a o Ha. destruct (IH a o Ha) as (f' & k & Hk).
    exists f', k. cbn. by rewrite store_register.
  - rewrite onTrackedFeature_run.
    apply (for_each_preserves no_leak); [intros x w'; apply add_entity_no_leak|].
    unfold after_removal.
    by apply (for_each_preserves no_leak); [intros x w'; apply erase_no_leak|].
Qed.



End Coverage.

(** * The handler on sample inputs *)

(** An [init()] that faults on the id ["B"] and hydrates every other
    tracker with the length of its id; callbacks are named by numbers. *)
Definition sample_init : FeatureType → ID → option nat :=
  λ _ id, if decide (id = "B"%string) then None else Some (String.length id).

Definition sample_world : World nat nat := empty_world.

(** The world after the faces ["A"] and ["C"] have been announced. *)
Definition world_AC : World nat nat :=
  final (onTrackedFeature sample_init face ["A"; "C"]%string sample_world).

(** The same faces, announced after a body: other addresses, same keys. *)
Definition world_AC' : World nat nat :=
  final (onTrackedFeature sample_init face ["C"; "A"]%string
           (final (onTrackedFeature sample_init body ["Z"]%string sample_world))).

(** A listener with one face callback registered, nothing tracked yet. *)
Definition world_observed : World nat nat :=
  mkWorld (onFace 7 empty_listener) ∅ [].

Lemma key_set_witness :
  completes (onTrackedFeature sample_init face ["C"; "A"; "C"]%string sample_world)
  ∧ dom (faces (listener (final
           (onTrackedFeature sample_init face ["C"; "A"; "C"]%string sample_world))))
    = list_to_set ["C"; "A"; "C"]%string.
Proof.
  pose proof (onTrackedFeature_key_set sample_init face ["C"; "A"; "C"]%string sample_world)
    as H.
  cbv zeta in H. destruct H as [Hc Hd].
  split; [vm_compute; exact I|]. apply Hd. vm_compute. exact I.
Defined.

Lemma preserves_identity_witness :
  faces (listener world_AC) !! "C"%string = Some (Shared 1)
  ∧ "C"%string ∈ ["D"; "C"]%string
  ∧ heap world_AC !! 1 = Some (mkTracker "C" face (Initialised 1))
  ∧ faces (listener (final (onTrackedFeature sample_init face ["D"; "C"]%string world_AC)))
      !! "C"%string = Some (Shared 1)
  ∧ heap (final (onTrackedFeature sample_init face ["D"; "C"]%string world_AC)) !! 1
    = Some (mkTracker "C" face (Initialised 1)).
Proof.
  assert (H1 : store face (listener world_AC) !! "C"%string = Some (Shared 1))
    by (vm_compute; reflexivity).
  assert (H2 : "C"%string ∈ ["D"; "C"]%string)
    by (apply (bool_decide_unpack _); vm_compute; exact I).
  assert (H3 : heap world_AC !! sp_get (Shared 1)
               = Some (mkTracker "C" face (Initialised 1)))
    by (vm_compute; reflexivity).
  pose proof (onTrackedFeature_preserves_identity sample_init face ["D"; "C"]%string
                world_AC "C"%string (Shared 1) _ H1 H2 H3) as H.
  cbv zeta in H. destruct H as (Hs & Hh & _).
  split; [exact H1|]. split; [exact H2|]. split; [exact H3|].
  split; [exact Hs|exact Hh].
Defined.

Lemma idempotent_witness :
  onTrackedFeature sample_init face ["A"; "C"]%string sample_world = Returned tt world_AC
  ∧ to_add face ["A"; "C"]%string world_AC = ∅
  ∧ to_remove face ["A"; "C"]%string world_AC = ∅
  ∧ onTrackedFeature sample_init face ["A"; "C"]%string world_AC = Returned tt world_AC.
Proof.
  assert (H1 : onTrackedFeature sample_init face ["A"; "C"]%string sample_world
               = Returned tt world_AC) by (vm_compute; reflexivity).
  destruct (onTrackedFeature_idempotent sample_init face ["A"; "C"]%string
              sample_world world_AC H1) as (Ha & Hr & _ & _ & Hs).
  split; [exact H1|]. split; [exact Ha|]. split; [exact Hr|exact Hs].
Defined.

Lemma removes_then_adds_witness :
  erased_ids (performed (onTrackedFeature sample_init face ["E"; "D"]%string) world_AC)
  = ["A"; "C"]%string
  ∧ inserted_ids (performed (onTrackedFeature sample_init face ["E"; "D"]%string) world_AC)
    = ["D"; "E"]%string
  ∧ ∃ w_mid,
      for_each (set_iter (to_remove face ["E"; "D"]%string world_AC))
        (λ id, erase face id) world_AC = Returned tt w_mid
      ∧ faces (listener w_mid) !! "A"%string = None
      ∧ faces (listener w_mid) !! "C"%string = None
      ∧ faces (listener w_mid) !! "D"%string = None
      ∧ onTrackedFeature sample_init face ["E"; "D"]%string world_AC
        = for_each (set_iter (to_add face ["E"; "D"]%string world_AC))
            (λ id, add_entity sample_init face id) w_mid.
Proof.
  pose proof (onTrackedFeature_removes_then_adds sample_init face ["E"; "D"]%string
                world_AC) as H.
  cbv zeta in H. destruct H as (He & Hi & _ & _ & w_mid & Hrm & _ & Hlk & Hrun & _).
  split; [exact He|]. split; [exact Hi|].
  exists w_mid. split; [exact Hrm|].
  split; [exact (Hlk "A"%string)|]. split; [exact (Hlk "C"%string)|].
  split; [exact (Hlk "D"%string)|exact Hrun].
Defined.

Lemma init_fault_witness :
  onTrackedFeature sample_init face ["A"; "B"; "C"]%string sample_world
  = Thrown (InitFault face "B")
      (final (onTrackedFeature sample_init face ["A"; "B"; "C"]%string sample_world))
  ∧ ∃ id, InitFault face "B" = InitFault face id
          ∧ faces (listener (final (onTrackedFeature sample_init face
                                      ["A"; "B"; "C"]%string sample_world))) !! id = None.
Proof.
  assert (H1 : onTrackedFeature sample_init face ["A"; "B"; "C"]%string sample_world
               = Thrown (InitFault face "B")
                   (final (onTrackedFeature sample_init face ["A"; "B"; "C"]%string
                             sample_world))) by (vm_compute; reflexivity).
  destruct (init_fault_leaves_id_absent sample_init face ["A"; "B"; "C"]%string
              sample_world _ _ H1) as (id & He & _ & _ & Hn & _).
  split; [exact H1|]. exists id. split; [exact He|exact Hn].
Defined.

Lemma getters_witness :
  getFaces (listener world_AC)
  = {[ "A"%string := Weak 0; "C"%string := Weak 1 ]}
  ∧ dom (getFaces (listener world_AC)) = dom (faces (listener world_AC))
  ∧ getPersons (listener world_AC) = persons (listener world_AC).
Proof.
  destruct (getters_snapshot (listener world_AC)) as ((Hf & Hd) & _ & _ & (Hp & _) & _).
  split; [|split; [exact Hd|exact Hp]].
  rewrite Hf. vm_compute. reflexivity.
Defined.

Lemma set_semantics_witness :
  (∀ id, id ∈ ["C"; "A"; "C"]%string ↔ id ∈ ["A"; "C"]%string)
  ∧ to_add face ["C"; "A"; "C"]%string sample_world = to_add face ["A"; "C"]%string sample_world
  ∧ onTrackedFeature sample_init face ["C"; "A"; "C"]%string sample_world
    = onTrackedFeature sample_init face ["A"; "C"]%string sample_world.
Proof.
  assert (H1 : ∀ id, id ∈ ["C"; "A"; "C"]%string ↔ id ∈ ["A"; "C"]%string).
  { intros id. rewrite !elem_of_cons, !elem_of_nil. tauto. }
  destruct (onTrackedFeature_set_semantics sample_init face _ _ sample_world H1)
    as (Ha & _ & Hrun & _).
  split; [exact H1|]. split; [exact Ha|exact Hrun].
Defined.

Lemma touches_one_map_witness :
  face ≠ body
  ∧ bodies (listener (final (onTrackedFeature sample_init face ["D"]%string world_AC')))
    = bodies (listener world_AC')
  ∧ face_callbacks (listener (final (onTrackedFeature sample_init face ["D"]%string
                                       world_observed)))
    = face_callbacks (listener world_observed).
Proof.
  pose proof (onTrackedFeature_touches_one_map sample_init face ["D"]%string world_AC') as H.
  pose proof (onTrackedFeature_touches_one_map sample_init face ["D"]%string world_observed)
    as H'.
  cbv zeta in H, H'.
  destruct H as (_ & Hb & _). destruct H' as (_ & _ & _ & _ & Hc & _).
  assert (Hne : face ≠ body) by discriminate.
  split; [exact Hne|]. split; [exact (Hb Hne)|exact Hc].
Defined.

Lemma deterministic_witness :
  dom (store face (listener world_AC)) = dom (store face (listener world_AC'))
  ∧ (∀ id, id ∈ ["C"; "D"; "C"]%string ↔ id ∈ ["D"; "C"]%string)
  ∧ faces (listener world_AC) ≠ faces (listener world_AC')
  ∧ to_add face ["C"; "D"; "C"]%string world_AC = to_add face ["D"; "C"]%string world_AC'
  ∧ dom (store face (listener (final
           (onTrackedFeature sample_init face ["C"; "D"; "C"]%string world_AC))))
    = dom (store face (listener (final
           (onTrackedFeature sample_init face ["D"; "C"]%string world_AC')))).
Proof.
  assert (H1 : dom (store face (listener world_AC)) = dom (store face (listener world_AC')))
    by (vm_compute; reflexivity).
  assert (H2 : ∀ id, id ∈ ["C"; "D"; "C"]%string ↔ id ∈ ["D"; "C"]%string).
  { intros id. rewrite !elem_of_cons, !elem_of_nil. tauto. }
  pose proof (onTrackedFeature_deterministic sample_init face _ _ world_AC world_AC' H1 H2)
    as H.
  cbv zeta in H. destruct H as (Ha & _ & Hd & _).
  split; [exact H1|]. split; [exact H2|]. split; [|split; [exact Ha|exact Hd]].
  vm_compute. discriminate.
Defined.

(** C8 as it was written says that no input makes the handler fail.
    With an [init()] that throws on the id ["B"], the list [["B"]] on a
    new listener does: the handler is left by the exception. *)
Lemma announcement_can_fail :
  onTrackedFeature sample_init face ["B"]%string sample_world
  = Thrown (InitFault face "B")
      (mkWorld empty_listener ∅ [EvMakeShared face "B" (Shared 0)])
  ∧ ¬ completes (onTrackedFeature sample_init face ["B"]%string sample_world).
Proof. split; [vm_compute; reflexivity|]. vm_compute. tauto. Qed.

(** The scenario of three announcements on a new listener, with an
    [init()] that never faults: [{A,B}], then [{B,C}], then nothing. *)
Example scenario_AB_BC_none :
  let plain_init : FeatureType → ID → option nat := λ _ id, Some (String.length id) in
  let step tracked (w : World nat nat) := final (onTrackedFeature plain_init voice tracked w) in
  let w1 := step ["A"; "B"]%string sample_world in
  let w2 := step ["B"; "C"]%string w1 in
  let w3 := step [] w2 in
  voices (listener w1) = {[ "A"%string := Shared 0; "B"%string := Shared 1 ]}
  ∧ voices (listener w2) = {[ "B"%string := Shared 1; "C"%string := Shared 2 ]}
  ∧ voices (listener w3) = ∅
  ∧ trace w3
    = [ EvMakeShared voice "A" (Shared 0); EvInit (Shared 0); EvInsert voice "A" (Shared 0);
        EvMakeShared voice "B" (Shared 1); EvInit (Shared 1); EvInsert voice "B" (Shared 1);
        EvErase voice "A";
        EvMakeShared voice "C" (Shared 2); EvInit (Shared 2); EvInsert voice "C" (Shared 2);
        EvErase voice "B"; EvErase voice "C" ].
Proof. vm_compute. repeat split. Qed.

(** C2 (notification of new entities), as the code has it. With one
    callback registered through [onFace] and the id ["A"] announced, the
    handler completes, ["A"] is in [to_add] and the new face is in the
    map, yet the registered callback has not been invoked: the handler
    performs a construction, a hydration and an insertion, and nothing
    else. *)
Theorem new_face_not_notified :
  face_callbacks (listener world_observed) = [7]
  ∧ to_add face ["A"]%string world_observed = {[ "A"%string ]}
  ∧ completes (onTrackedFeature sample_init face ["A"]%string world_observed)
  ∧ faces (listener (final (onTrackedFeature sample_init face ["A"]%string world_observed)))
      !! "A"%string = Some (Shared 0)
  ∧ performed (onTrackedFeature sample_init face ["A"]%string) world_observed
    = [EvMakeShared face "A" (Shared 0); EvInit (Shared 0); EvInsert face "A" (Shared 0)]
  ∧ notifications (performed (onTrackedFeature sample_init face ["A"]%string) world_observed)
    = [].
Proof. vm_compute. repeat split. Qed.

(** ** The listener in use, on sample inputs *)

Lemma getters_give_hydrated_entities_witness :
  reachable sample_init world_AC
  ∧ getFaces (listener world_AC) !! "C"%string = Some (Weak 1)
  ∧ ∃ d, heap world_AC !! 1 = Some (mkTracker "C" face (Initialised d)).
Proof.
  assert (Hr : reachable sample_init world_AC).
  { unfold world_AC. apply reachable_announce. exact (reachable_new _). }
  assert (Hg : getFaces (listener world_AC) !! "C"%string = Some (Weak 1))
    by (vm_compute; reflexivity).
  destruct (getters_give_hydrated_entities sample_init world_AC Hr) as (Hf & _).
  split; [exact Hr|]. split; [exact Hg|]. exact (Hf _ _ Hg).
Defined.

Lemma entries_do_not_alias_witness :
  reachable sample_init world_AC'
  ∧ store face (listener world_AC') !! "A"%string = Some (Shared 1)
  ∧ (face = face ∧ "A"%string = "A"%string).
Proof.
  assert (Hr : reachable sample_init world_AC').
  { unfold world_AC'. do 2 apply reachable_announce. exact (reachable_new _). }
  assert (H1 : store face (listener world_AC') !! "A"%string = Some (Shared 1))
    by (vm_compute; reflexivity).
  split; [exact Hr|]. split; [exact H1|].
  exact (entries_do_not_alias sample_init world_AC' face face _ _ _ Hr H1 H1).
Defined.

Lemma completed_call_course_witness :
  completes (onTrackedFeature sample_init face ["E"; "D"]%string world_AC)
  ∧ ∃ ps : list shared_ptr,
      performed (onTrackedFeature sample_init face ["E"; "D"]%string) world_AC
      = (EvErase face <$> ["A"; "C"]%string)
        ++ concat (zip_with (addition_of face) ["D"; "E"]%string ps)
      ∧ NoDup ps.
Proof.
  assert (Hc : completes (onTrackedFeature sample_init face ["E"; "D"]%string world_AC))
    by (vm_compute; exact I).
  destruct (completed_call_course sample_init face ["E"; "D"]%string world_AC Hc)
    as (ps & Hp & _ & Hnd & _).
  split; [exact Hc|]. exists ps. split; [exact Hp|exact Hnd].
Defined.

Lemma nothing_new_only_erases_witness :
  (∀ id, id ∈ ["C"; "C"]%string → is_Some (store face (listener world_AC) !! id))
  ∧ ∃ w', onTrackedFeature sample_init face ["C"; "C"]%string world_AC = Returned tt w'
          ∧ store face (listener w') !! "A"%string = None
          ∧ store face (listener w') !! "C"%string = Some (Shared 1).
Proof.
  assert (Hk : ∀ id, id ∈ ["C"; "C"]%string
                     → is_Some (store face (listener world_AC) !! id)).
  { intros id Hin. assert (id = "C"%string) as ->.
    { rewrite !elem_of_cons, elem_of_nil in Hin. tauto. }
    exists (Shared 1). vm_compute. reflexivity. }
  destruct (nothing_new_only_erases sample_init face ["C"; "C"]%string world_AC Hk)
    as (w' & Hrun & _ & Hlk).
  split; [exact Hk|]. exists w'. split; [exact Hrun|]. split.
  - rewrite Hlk. vm_compute. reflexivity.
  - rewrite Hlk. vm_compute. reflexivity.
Defined.

Lemma fault_keeps_partial_update_witness :
  onTrackedFeature sample_init face ["D"; "C"; "B"; "AB"]%string world_AC
  = Thrown (InitFault face "B")
      (final (onTrackedFeature sample_init face ["D"; "C"; "B"; "AB"]%string world_AC))
  ∧ dom (faces (listener (final (onTrackedFeature sample_init face
                                   ["D"; "C"; "B"; "AB"]%string world_AC))))
    = {[ "C"%string; "AB"%string ]}
  ∧ ∃ id before after,
      InitFault face "B" = InitFault face id
      ∧ set_iter (to_add face ["D"; "C"; "B"; "AB"]%string world_AC) = before ++ id :: after.
Proof.
  assert (H1 : onTrackedFeature sample_init face ["D"; "C"; "B"; "AB"]%string world_AC
               = Thrown (InitFault face "B")
                   (final (onTrackedFeature sample_init face
                             ["D"; "C"; "B"; "AB"]%string world_AC)))
    by (vm_compute; reflexivity).
  destruct (fault_keeps_partial_update sample_init face _ world_AC _ _ H1)
    as (id & before & after & He & Hs & _).
  split; [exact H1|]. split; [vm_compute; reflexivity|].
  exists id, before, after. split; [exact He|exact Hs].
Defined.

Lemma last_announcement_decides_keys_witness :
  completes (announce_all sample_init
               [(face, ["A"]%string); (body, ["Z"]%string); (face, ["D"; "C"]%string)]
               sample_world)
  ∧ dom (faces (listener (final
           (announce_all sample_init
              [(face, ["A"]%string); (body, ["Z"]%string); (face, ["D"; "C"]%string)]
              sample_world))))
    = list_to_set ["D"; "C"]%string.
Proof.
  assert (Hc : completes (announce_all sample_init
               [(face, ["A"]%string); (body, ["Z"]%string); (face, ["D"; "C"]%string)]
               sample_world)) by (vm_compute; exact I).
  split; [exact Hc|].
  exact (last_announcement_decides_keys sample_init _ sample_world face Hc).
Defined.

Lemma entity_survives_announcements_witness :
  store face (listener world_AC) !! "C"%string = Some (Shared 1)
  ∧ heap world_AC !! 1 = Some (mkTracker "C" face (Initialised 1))
  ∧ faces (listener (final
       (announce_all sample_init
          [(face, ["C"; "D"]%string); (body, ["Z"]%string); (face, ["B"; "C"]%string)]
          world_AC))) !! "C"%string = Some (Shared 1).
Proof.
  assert (H1 : store face (listener world_AC) !! "C"%string = Some (Shared 1))
    by (vm_compute; reflexivity).
  assert (H2 : heap world_AC !! sp_get (Shared 1)
               = Some (mkTracker "C" face (Initialised 1)))
    by (vm_compute; reflexivity).
  assert (H3 : ∀ a : FeatureType * list string,
             a ∈ [(face, ["C"; "D"]%string); (body, ["Z"]%string);
                  (face, ["B"; "C"]%string)]
             → a.1 = face → "C"%string ∈ a.2).
  { intros a Hin Hf. rewrite !elem_of_cons, elem_of_nil in Hin.
    destruct Hin as [->|[->|[->|[]]]]; cbn in *;
      [|discriminate|]; rewrite !elem_of_cons; tauto. }
  destruct (entity_survives_announcements sample_init _ world_AC face _ _ _ H1 H2 H3)
    as [Hs _].
  split; [exact H1|]. split; [exact H2|exact Hs].
Defined.

Lemma init_subscribes_each_category_witness :
  ∃ s, HRIListener_init ∅ !! voice = Some s
       ∧ sub_feature s = voice
       ∧ sub_queue_size s = 1.
Proof.
  destruct (init_subscribes_each_category (Detail := nat) (Callback := nat)
              sample_init ∅ voice) as (s & Hs & Hf & Hq & _).
  exists s. split; [exact Hs|]. split; [exact Hf|exact Hq].
Defined.


Lemma trackers_are_held_by_entries_witness :
  reachable sample_init
    (final (onTrackedFeature sample_init face ["C"; "B"]%string world_AC))
  ∧ heap (final (onTrackedFeature sample_init face ["C"; "B"]%string world_AC)) !! 1
    = Some (mkTracker "C" face (Initialised 1))
  ∧ dom (heap (final (onTrackedFeature sample_init face ["C"; "B"]%string world_AC)))
    = {[ 1 ]}
  ∧ ∃ f id, store f (listener (final (onTrackedFeature sample_init face
                                       ["C"; "B"]%string world_AC))) !! id
            = Some (Shared 1).
Proof.
  assert (Hr : reachable sample_init
                 (final (onTrackedFeature sample_init face ["C"; "B"]%string world_AC))).
  { unfold world_AC. do 2 apply reachable_announce. exact (reachable_new _). }
  assert (Hh : heap (final (onTrackedFeature sample_init face ["C"; "B"]%string world_AC))
               !! 1 = Some (mkTracker "C" face (Initialised 1)))
    by (vm_compute; reflexivity).
  split; [exact Hr|]. split; [exact Hh|]. split; [vm_compute; reflexivity|].
  exact (trackers_are_held_by_entries sample_init _ _ _ Hr Hh).
Defined.
